(** * goparser: a shallow embedding of the doc-tag walker, the literal
      decoder and the function filter, with the properties of its
      specification.

    The Go package is a set of pure scans over an [*ast.File].  The embedding
    keeps the shape of the source: one Rocq function per Go function, the
    type parameter of a generic function as an ordinary argument ranging over
    the closed set of its constraint, a [*T] result as [option T], and a
    run-time panic (index out of range, failed type assertion) as the
    [Panic] outcome of the [res] monad. *)

From Stdlib Require Import ZArith Lia Bool Ascii String List.
From Stdlib Require Import Floats.SpecFloat.
From stdpp Require Import base tactics option list gmap strings pretty.

Set Warnings "-register-all".

Local Open Scope string_scope.
Local Open Scope list_scope.
Local Open Scope Z_scope.

(** ** Outcomes: a value, or a run-time panic *)

Inductive res (A : Type) : Type :=
| Panic : res A
| Ok (a : A) : res A.
Arguments Panic {A}.
Arguments Ok {A} a.

#[global] Instance res_ret : MRet res := fun A a => Ok a.
#[global] Instance res_bind : MBind res :=
  fun A B f m => match m with Panic => Panic | Ok a => f a end.

(** ** The slice of [go/ast] the package inspects *)

(** [token.Token] of a [*ast.BasicLit]. *)
Inductive Token := INT | FLOAT | IMAG | CHAR | STRING.

#[global] Instance Token_eq_dec : EqDecision Token.
Proof. solve_decision. Defined.

Record BasicLit := { Kind : Token; Value : string }.

(** Expression nodes.  Every node type that the package never names in a
    type switch or assertion (unary, call, index, paren, ...) is [OtherExpr].
    [Sel] of a selector is a [*ast.Ident] and may be nil. *)
Inductive Expr :=
| Ident (Name : string)
| BasicLitE (lit : BasicLit)
| CompositeLit (Elts : list Expr)
| KeyValueExpr (Key Val : Expr)
| StarExpr (X : Expr)
| SelectorExpr (X : Expr) (Sel : option string)
| OtherExpr.

(** [ast.CommentGroup]: the [Text] of each [*ast.Comment] of [List]. *)
Definition CommentGroup := list string.

(** What [walkDecls] reads through [n.Obj.Decl] when it is a
    [*ast.ValueSpec]: the spec's [Doc] and [Values]. *)
Record ValueSpecData := { Doc : option CommentGroup; Values : list Expr }.

(** [ast.Object.Decl]: a value spec, or anything else. *)
Inductive ObjDecl :=
| DeclValueSpec (vSpec : ValueSpecData)
| DeclOther.

(** A name of [ValueSpec.Names]: [Obj] is nil or an object with its [Decl]. *)
Record NameIdent := { Name : string; Obj : option ObjDecl }.

Record ValueSpec := { Names : list NameIdent; Data : ValueSpecData }.

Inductive Spec :=
| ValueSpecS (s : ValueSpec)
| OtherSpec.

Record Field := { FType : Expr }.
Definition FieldList := list Field.
Record FuncType := { Params : option FieldList }.
Record FuncDecl :=
  { Recv : option FieldList; FName : string; Type_ : option FuncType }.

Inductive Decl :=
| GenDeclD (Specs : list Spec)
| FuncDeclD (decl : FuncDecl)
| BadDecl.

Record File := { Decls : list Decl }.

(** The tree that [go/parser] builds for a value spec: every name carries an
    object whose [Decl] is the spec itself. *)
Definition declare (names : list string) (doc : option CommentGroup)
    (values : list Expr) : ValueSpec :=
  let d := {| Doc := doc; Values := values |} in
  {| Names := map (fun n => {| Name := n; Obj := Some (DeclValueSpec d) |}) names;
     Data := d |}.

(** ** Standard-library routines, as the package calls them *)

Module strconv.

Inductive NumError := ErrSyntax | ErrRange.

(** [strconv.ParseBool]. *)
Definition ParseBool (str : string) : bool * option NumError :=
  if bool_decide (str ∈ ["1"; "t"; "T"; "TRUE"; "true"; "True"]) then (true, None)
  else if bool_decide (str ∈ ["0"; "f"; "F"; "FALSE"; "false"; "False"]) then (false, None)
  else (false, Some ErrSyntax).

Definition wrap64 (z : Z) : Z := z mod 2 ^ 64.
(** [int64(u)] for a [uint64] [u], and signed wrap-around in general. *)
Definition toInt64 (z : Z) : Z := (z + 2 ^ 63) mod 2 ^ 64 - 2 ^ 63.

Definition maxUint64 : Z := 2 ^ 64 - 1.

Definition byteOf (c : ascii) : Z := Z.of_N (N_of_ascii c).
(** [lower(c) = c | ('x' - 'X')]. *)
Definition lower (c : Z) : Z := Z.lor c 32.

(** The digit loop of [ParseUint] at an explicit base between 2 and 36
    (so underscores are never accepted): the accumulator [n] runs over the
    bytes of the text. *)
Fixpoint digits (base maxVal : Z) (s : string) (n : Z) : Z * option NumError :=
  match s with
  | EmptyString => (n, None)
  | String ch s' =>
      let c := byteOf ch in
      let d :=
        if (48 <=? c) && (c <=? 57) then Some (c - 48)
        else if (97 <=? lower c) && (lower c <=? 122) then Some (lower c - 97 + 10)
        else None in
      match d with
      | None => (0, Some ErrSyntax)
      | Some d =>
          if d >=? base then (0, Some ErrSyntax)
          else if n >=? maxUint64 / base + 1 then (maxVal, Some ErrRange)
          else
            let n' := wrap64 (n * base) in
            let n1 := wrap64 (n' + d) in
            if (n1 <? n') || (n1 >? maxVal) then (maxVal, Some ErrRange)
            else digits base maxVal s' n1
      end
  end.

(** [strconv.ParseUint(s, 10, bitSize)] for [bitSize] in 1..64. *)
Definition ParseUint (s : string) (bitSize : Z) : Z * option NumError :=
  if bool_decide (s = "") then (0, Some ErrSyntax)
  else
    let maxVal := wrap64 (wrap64 (Z.shiftl 1 bitSize) - 1) in
    digits 10 maxVal s 0.

(** [strconv.ParseInt(s, 10, bitSize)] for [bitSize] in 1..64. *)
Definition ParseInt (s : string) (bitSize : Z) : Z * option NumError :=
  match s with
  | EmptyString => (0, Some ErrSyntax)
  | String c0 rest =>
      let neg := bool_decide (c0 = "-"%char) in
      let s1 := if bool_decide (c0 = "+"%char) then rest
                else if neg then rest else s in
      let '(un, err) := ParseUint s1 64 in
      match err with
      | Some ErrSyntax => (0, Some ErrSyntax)
      | _ =>
          let cutoff := wrap64 (Z.shiftl 1 (bitSize - 1)) in
          if negb neg && (un >=? cutoff) then (toInt64 (cutoff - 1), Some ErrRange)
          else if neg && (un >? cutoff) then (toInt64 (- toInt64 cutoff), Some ErrRange)
          else
            let n := toInt64 un in
            (if neg then toInt64 (- n) else n, None)
      end
  end.

End strconv.

(** [strings.TrimLeft(s, "/ ")]: the cutset is ASCII, so the leading bytes
    that belong to it are dropped one by one. *)
Fixpoint TrimLeft (s : string) (cutset : list ascii) : string :=
  match s with
  | EmptyString => EmptyString
  | String c s' => if bool_decide (c ∈ cutset) then TrimLeft s' cutset else s
  end.

Definition docCutset : list ascii := ["/"%char; " "%char].

(** ** Type arguments and values *)

(** The constraint [iInt]. *)
Inductive IntType :=
| Uint8 | Uint16 | Uint32 | Uint64 | Int8 | Int16 | Int32 | Int64.

(** The constraint [iFloat]. *)
Inductive FloatType := Float32 | Float64.

(** The constraint [iLit]: [string | iInt | iFloat | bool]. *)
Inductive LitType :=
| TString
| TInt (i : IntType)
| TFloat (f : FloatType)
| TBool.

#[global] Instance IntType_eq_dec : EqDecision IntType.
Proof. solve_decision. Defined.
#[global] Instance FloatType_eq_dec : EqDecision FloatType.
Proof. solve_decision. Defined.
#[global] Instance LitType_eq_dec : EqDecision LitType.
Proof. solve_decision. Defined.

(** An IEEE 754 datum, the payload of a [float32] or [float64]. *)
Definition float := spec_float.

(** A Go value together with its dynamic type, which is what an
    [interface{}] holds. *)
Inductive Val :=
| VString (s : string)
| VInt (i : IntType) (z : Z)
| VFloat (f : FloatType) (x : float)
| VBool (b : bool).

Definition typeOf (v : Val) : LitType :=
  match v with
  | VString _ => TString
  | VInt i _ => TInt i
  | VFloat f _ => TFloat f
  | VBool _ => TBool
  end.

(** The type assertion [(interface{})(v).(T)] at a non-interface type [T]:
    it yields [v] when the dynamic type of [v] is identical to [T], and
    panics otherwise. *)
Definition assertType (v : Val) (T : LitType) : res Val :=
  if bool_decide (typeOf v = T) then Ok v else Panic.

(** ** Go maps *)

(** Key comparison [==] between two values of one key type.  On floats it is
    the IEEE comparison: a NaN differs from everything, itself included, and
    the two zeros are equal. *)
Definition keyEq (a b : Val) : bool :=
  match a, b with
  | VString s, VString t => bool_decide (s = t)
  | VInt i x, VInt j y => bool_decide (i = j) && (x =? y)
  | VFloat f x, VFloat g y => bool_decide (f = g) && SFeqb x y
  | VBool x, VBool y => Bool.eqb x y
  | _, _ => false
  end.

(** A [map[K]V] as its entries in the order in which their keys were first
    assigned. *)
Definition GoMap := list (Val * Val).

(** [m[k] = v]: an entry whose key equals [k] is overwritten in place,
    otherwise a new entry is added. *)
Fixpoint mapAssign (m : GoMap) (k v : Val) : GoMap :=
  match m with
  | [] => [(k, v)]
  | (k', v') :: m' =>
      if keyEq k' k then (k, v) :: m' else (k', v') :: mapAssign m' k v
  end.

(** [m[k]] with the comma-ok result. *)
Fixpoint mapIndex (m : GoMap) (k : Val) : option Val :=
  match m with
  | [] => None
  | (k', v') :: m' => if keyEq k' k then Some v' else mapIndex m' k
  end.

(** ** Result records *)

Record LitValue := { lvDoc : string; lvName : string; lvValue : Val }.
Record SliceLitValue := { svDoc : string; svName : string; svValue : list Val }.
Record MapLitValue := { mvDoc : string; mvName : string; mvValue : GoMap }.

(** ** The literal decoder *)

Definition parseBool (val : string) : bool * bool :=
  match strconv.ParseBool val with
  | (_, Some _) => (false, false)
  | (b, None) => (b, true)
  end.

Definition parseUint (I : IntType) (s : string) : res (option Val) :=
  let bitSize :=
    match I with
    | Uint8 => Some 8 | Uint16 => Some 16 | Uint32 => Some 32 | Uint64 => Some 64
    | _ => None
    end in
  match bitSize with
  | None => Ok None
  | Some bitSize =>
      let '(uintVal, err) := strconv.ParseUint s bitSize in
      match err with
      | Some _ => Ok None
      | None => zeroVal ← assertType (VInt Uint64 uintVal) (TInt I); Ok (Some zeroVal)
      end
  end.

Definition parseInt (I : IntType) (s : string) : res (option Val) :=
  let bitSize :=
    match I with
    | Int8 => Some 8 | Int16 => Some 16 | Int32 => Some 32 | Int64 => Some 64
    | _ => None
    end in
  match bitSize with
  | None => Ok None
  | Some bitSize =>
      let '(intVal, err) := strconv.ParseInt s bitSize in
      match err with
      | Some _ => Ok None
      | None => zeroVal ← assertType (VInt Int64 intVal) (TInt I); Ok (Some zeroVal)
      end
  end.

Definition parseIntLit (I : IntType) (val : BasicLit) : res (option Val) :=
  if bool_decide (Kind val ≠ INT) then Ok None
  else
    match I with
    | Int8 | Int16 | Int32 | Int64 => parseInt I (Value val)
    | Uint8 | Uint16 | Uint32 | Uint64 => parseUint I (Value val)
    end.

Section Decoder.

(** The two [strconv] routines whose result the package only passes on:
    [Unquote], and [ParseFloat] at a bit size, each with [None] for a
    non-nil error. *)
Variable Unquote : string → option string.
Variable ParseFloat : string → Z → option float.

Definition parseFloat (F : FloatType) (s : string) : res (option Val) :=
  let bitSize := match F with Float32 => 32 | Float64 => 64 end in
  match ParseFloat s bitSize with
  | None => Ok None
  | Some fVal => zeroVal ← assertType (VFloat Float64 fVal) (TFloat F); Ok (Some zeroVal)
  end.

Definition parseFloatLit (F : FloatType) (val : BasicLit) : res (option Val) :=
  if bool_decide (Kind val ≠ FLOAT) then Ok None
  else parseFloat F (Value val).

Definition parseBasicLit (V : LitType) (val : BasicLit) : res (option Val) :=
  match V with
  | TString =>
      if bool_decide (Kind val ≠ STRING) then Ok None
      else
        match Unquote (Value val) with
        | None => Ok None
        | Some strVal => zeroVal ← assertType (VString strVal) V; Ok (Some zeroVal)
        end
  | TInt i =>
      iv ← parseIntLit i val;
      match iv with
      | None => Ok None
      | Some iv => zeroVal ← assertType iv V; Ok (Some zeroVal)
      end
  | TFloat f =>
      fv ← parseFloatLit f val;
      match fv with
      | None => Ok None
      | Some fv => zeroVal ← assertType fv V; Ok (Some zeroVal)
      end
  | TBool => Ok None
  end.

(** ** The collection decoders and the scalar decoder, as the callbacks
       handed to [walkDecls] *)

Definition basicFn (V : LitType) (doc name : string) (val : Expr)
    : res (option LitValue) :=
  let isBool := bool_decide (V = TBool) in
  let emit tVal := Ok (Some {| lvDoc := doc; lvName := name; lvValue := tVal |}) in
  match val with
  | Ident v =>
      if negb isBool then Ok None
      else
        let '(b, ok) := parseBool v in
        if negb ok then Ok None
        else tVal ← assertType (VBool b) V; emit tVal
  | BasicLitE v =>
      b ← parseBasicLit V v;
      match b with
      | None => Ok None
      | Some tVal => emit tVal
      end
  | _ => Ok None
  end.

(** The element loop of [getSliceValues]; [None] is the early [return nil]. *)
Fixpoint sliceLoop (V : LitType) (elts : list Expr) (sValues : list Val)
    : res (option (list Val)) :=
  match elts with
  | [] => Ok (Some sValues)
  | elt :: elts' =>
      match elt with
      | BasicLitE bVal =>
          pVal ← parseBasicLit V bVal;
          match pVal with
          | None => Ok None
          | Some pVal => sliceLoop V elts' (sValues ++ [pVal])
          end
      | _ => sliceLoop V elts' sValues
      end
  end.

Definition sliceFn (V : LitType) (doc name : string) (val : Expr)
    : res (option SliceLitValue) :=
  match val with
  | CompositeLit elts =>
      r ← sliceLoop V elts [];
      match r with
      | None => Ok None
      | Some sValues =>
          if bool_decide (0 < length sValues)%nat
          then Ok (Some {| svDoc := doc; svName := name; svValue := sValues |})
          else Ok None
      end
  | _ => Ok None
  end.

(** The element loop of [getMapValues]; it has no early return. *)
Fixpoint mapLoop (K V : LitType) (elts : list Expr) (cValues : GoMap)
    : res GoMap :=
  match elts with
  | [] => Ok cValues
  | elt :: elts' =>
      match elt with
      | KeyValueExpr (BasicLitE bKey) (BasicLitE bVal) =>
          k ← parseBasicLit K bKey;
          v ← parseBasicLit V bVal;
          match k, v with
          | Some k, Some v => mapLoop K V elts' (mapAssign cValues k v)
          | _, _ => mapLoop K V elts' cValues
          end
      | _ => mapLoop K V elts' cValues
      end
  end.

Definition mapFn (K V : LitType) (doc name : string) (val : Expr)
    : res (option MapLitValue) :=
  match val with
  | CompositeLit elts =>
      cValues ← mapLoop K V elts [];
      if bool_decide (0 < length cValues)%nat
      then Ok (Some {| mvDoc := doc; mvName := name; mvValue := cValues |})
      else Ok None
  | _ => Ok None
  end.

End Decoder.

(** ** The declaration walker *)

(** A [for _, x := range l] loop whose body updates the loop state or
    panics; [continue] is a body that returns the state unchanged. *)
Fixpoint forRange {A S : Type} (body : A → S → res S) (l : list A) (s : S)
    : res S :=
  match l with
  | [] => Ok s
  | x :: l' => s' ← body x s; forRange body l' s'
  end.

Section Walk.

Context {T : Type}.
Variable docMap : gset string.
Variable fn : string → string → Expr → res (option T).

(** The scan of [vSpec.Doc.List]: [foundDoc] is the first trimmed line
    that is a key of [docMap], or the empty string when there is none. *)
Fixpoint findDoc (docs : CommentGroup) : string :=
  match docs with
  | [] => ""
  | doc :: docs' =>
      let docTxt := TrimLeft doc docCutset in
      if bool_decide (docTxt ∈ docMap) then docTxt else findDoc docs'
  end.

(** The body of the loop over [s.Names]. *)
Definition visitName (n : NameIdent) (result : list T) : res (list T) :=
  match Obj n with
  | None => Ok result
  | Some DeclOther => Ok result
  | Some (DeclValueSpec vSpec) =>
      match Doc vSpec with
      | None => Ok result
      | Some docs =>
          if bool_decide (length docs < 1)%nat then Ok result
          else
            let foundDoc := findDoc docs in
            if bool_decide (foundDoc = "") then Ok result
            else
              match Values vSpec !! 0%nat with
              | None => Panic
              | Some val =>
                  r ← fn foundDoc (Name n) val;
                  match r with
                  | Some r => Ok (result ++ [r])
                  | None => Ok result
                  end
              end
      end
  end.

Definition visitSpec (spec : Spec) (result : list T) : res (list T) :=
  match spec with
  | ValueSpecS s => forRange visitName (Names s) result
  | OtherSpec => Ok result
  end.

Definition visitDecl (d : Decl) (result : list T) : res (list T) :=
  match d with
  | GenDeclD specs => forRange visitSpec specs result
  | _ => Ok result
  end.

Definition walkDecls (f : File) : res (list T) :=
  forRange visitDecl (Decls f) [].

End Walk.

(** [docMap] as the public entry points build it from [docLabels]. *)
Definition mkDocMap (docLabels : list string) : gset string :=
  list_to_set docLabels.

Section Queries.

Variable Unquote : string → option string.
Variable ParseFloat : string → Z → option float.

Definition getBasicValues (V : LitType) (f : File) (docMap : gset string)
    : res (list LitValue) :=
  walkDecls docMap (basicFn Unquote ParseFloat V) f.

Definition getSliceValues (V : LitType) (f : File) (docMap : gset string)
    : res (list SliceLitValue) :=
  walkDecls docMap (sliceFn Unquote ParseFloat V) f.

Definition getMapValues (K V : LitType) (f : File) (docMap : gset string)
    : res (list MapLitValue) :=
  walkDecls docMap (mapFn Unquote ParseFloat K V) f.

Definition GetBasicValues (V : LitType) (g : File) (docLabels : list string)
    : res (list LitValue) :=
  if bool_decide (length docLabels = 0%nat) then Ok []
  else getBasicValues V g (mkDocMap docLabels).

Definition GetSliceValues (V : LitType) (g : File) (docLabels : list string)
    : res (list SliceLitValue) :=
  if bool_decide (length docLabels = 0%nat) then Ok []
  else getSliceValues V g (mkDocMap docLabels).

Definition GetMapValues (K V : LitType) (g : File) (docLabels : list string)
    : res (list MapLitValue) :=
  if bool_decide (length docLabels = 0%nat) then Ok []
  else getMapValues K V g (mkDocMap docLabels).

End Queries.

(** ** The function filter *)

Section FuncNames.

(** [fmt.Sprintf("%q", par)]. *)
Variable Quote : string → string.

(** The receiver test; [false] is the [continue] of the declaration loop. *)
Definition recvCheck (recType : string) (rec : option FieldList) : res bool :=
  match rec with
  | None => Ok (negb (bool_decide (recType ≠ "")))
  | Some l =>
      match l !! 0%nat with
      | None => Panic
      | Some r =>
          match FType r with
          | Ident name => Ok (negb (bool_decide (name ≠ recType)))
          | StarExpr X =>
              match X with
              | Ident name => Ok (negb (bool_decide (name ≠ recType)))
              | _ => Ok false
              end
          | _ => Ok true
          end
      end
  end.

(** The body of the loop that fills [paramsMap]. *)
Definition addParam (par : Field) (paramsMap : gset string) : gset string :=
  match FType par with
  | Ident name => {[name]} ∪ paramsMap
  | StarExpr (Ident name) => {[name]} ∪ paramsMap
  | StarExpr (SelectorExpr _ (Some sel)) => {[sel]} ∪ paramsMap
  | SelectorExpr _ (Some sel) => {[sel]} ∪ paramsMap
  | _ => paramsMap
  end.

(** The parameter test; [false] is [continue] or [continue outer]. *)
Definition paramsCheck (paramTypes : list string) (t : option FuncType) : bool :=
  match t ≫= Params with
  | None => negb (bool_decide (0 < length paramTypes)%nat)
  | Some l =>
      let paramsMap := foldl (fun m par => addParam par m) ∅ l in
      forallb (fun par =>
                 bool_decide (par ∈ paramsMap) || bool_decide (Quote par ∈ paramsMap))
              paramTypes
  end.

Definition visitFunc (recType : string) (paramTypes : list string)
    (d : Decl) (result : list string) : res (list string) :=
  match d with
  | FuncDeclD decl =>
      ok ← recvCheck recType (Recv decl);
      if negb ok then Ok result
      else if negb (paramsCheck paramTypes (Type_ decl)) then Ok result
      else Ok (result ++ [FName decl])
  | _ => Ok result
  end.

Definition GetFuncNames (g : File) (recType : string) (paramTypes : list string)
    : res (list string) :=
  forRange (visitFunc recType paramTypes) (Decls g) [].

End FuncNames.


(** ** Vocabulary of the statements *)

(** The literal category that a requested type accepts; [bool] accepts no
    basic literal at all. *)
Definition litCategory (V : LitType) : option Token :=
  match V with
  | TString => Some STRING
  | TInt _ => Some INT
  | TFloat _ => Some FLOAT
  | TBool => None
  end.

(** The largest value of each integer type. *)
Definition maxOf (I : IntType) : Z :=
  match I with
  | Uint8 => 2 ^ 8 - 1 | Uint16 => 2 ^ 16 - 1 | Uint32 => 2 ^ 32 - 1 | Uint64 => 2 ^ 64 - 1
  | Int8 => 2 ^ 7 - 1 | Int16 => 2 ^ 15 - 1 | Int32 => 2 ^ 31 - 1 | Int64 => 2 ^ 63 - 1
  end.

(** The requested types at which the decoder asserts a value at its own
    dynamic type: [strconv] hands back [uint64], [int64] and [float64]. *)
Definition wide (V : LitType) : bool :=
  match V with
  | TString | TBool | TInt Uint64 | TInt Int64 | TFloat Float64 => true
  | _ => false
  end.

(** The tokens of [strconv.ParseBool]. *)
Definition trueTokens : list string := ["1"; "t"; "T"; "TRUE"; "true"; "True"].
Definition falseTokens : list string := ["0"; "f"; "F"; "FALSE"; "false"; "False"].

(** [t] is the matched tag of a doc comment: the trimmed text of the first
    line whose trimmed text is in the tag set. *)
Definition matchedTag (docMap : gset string) (docs : CommentGroup) (t : string) : Prop :=
  ∃ pre d post,
    docs = pre ++ d :: post
    ∧ (∀ d', d' ∈ pre → TrimLeft d' docCutset ∉ docMap)
    ∧ TrimLeft d docCutset = t
    ∧ t ∈ docMap.

(** No line of the doc comment is in the tag set after trimming. *)
Definition noTag (docMap : gset string) (docs : CommentGroup) : Prop :=
  ∀ d, d ∈ docs → TrimLeft d docCutset ∉ docMap.


(** A key-value element both of whose sides are basic literals. *)
Definition kv (bKey bVal : BasicLit) : Expr :=
  KeyValueExpr (BasicLitE bKey) (BasicLitE bVal).

Definition isLitPair (e : Expr) : bool :=
  match e with KeyValueExpr (BasicLitE _) (BasicLitE _) => true | _ => false end.

(** The assignments [m[k] = v] for the pairs of a list, in order. *)
Definition assignAll (m : GoMap) (ps : list (Val * Val)) : GoMap :=
  foldl (λ m p, mapAssign m p.1 p.2) m ps.

(** The key and value of each element of a composite literal that is a pair
    of basic literals both of which decode, in source order. *)
Fixpoint decodedPairs (Unquote : string → option string)
    (ParseFloat : string → Z → option float) (K V : LitType)
    (elts : list Expr) : list (Val * Val) :=
  match elts with
  | [] => []
  | KeyValueExpr (BasicLitE bKey) (BasicLitE bVal) :: elts' =>
      match parseBasicLit Unquote ParseFloat K bKey,
            parseBasicLit Unquote ParseFloat V bVal with
      | Ok (Some k), Ok (Some v) =>
          (k, v) :: decodedPairs Unquote ParseFloat K V elts'
      | _, _ => decodedPairs Unquote ParseFloat K V elts'
      end
  | _ :: elts' => decodedPairs Unquote ParseFloat K V elts'
  end.

(** Decimal digits and the number they spell, most significant first. *)
Definition isDec (c : ascii) : bool :=
  (48 <=? strconv.byteOf c) && (strconv.byteOf c <=? 57).

Fixpoint allDec (s : string) : bool :=
  match s with
  | EmptyString => true
  | String c s' => isDec c && allDec s'
  end.

Fixpoint decValue (s : string) (n : Z) : Z :=
  match s with
  | EmptyString => n
  | String c s' => decValue s' (10 * n + (strconv.byteOf c - 48))
  end.

(** The bit sizes at which the package calls [strconv]. *)
Definition bitSizes : list Z := [8; 16; 32; 64].

(** The sign that [ParseInt] picks off before the digits. *)
Definition stripSign (s : string) : string :=
  match s with
  | String c rest =>
      if bool_decide (c = "+"%char) || bool_decide (c = "-"%char) then rest else s
  | EmptyString => s
  end.

Definition isSigned (I : IntType) : bool :=
  match I with
  | Int8 | Int16 | Int32 | Int64 => true
  | _ => false
  end.

(** The receiver type name of a method, through one pointer. *)
Definition recvTypeName (decl : FuncDecl) : option string :=
  match Recv decl with
  | Some (r :: _) =>
      match FType r with
      | Ident name => Some name
      | StarExpr (Ident name) => Some name
      | _ => None
      end
  | _ => None
  end.

(** The receivers on which the filter has a test: none, an identifier, or a
    pointer to anything. *)
Definition recvTested (d : Decl) : bool :=
  match d with
  | FuncDeclD decl =>
      match Recv decl with
      | None => true
      | Some [] => false
      | Some (r :: _) =>
          match FType r with
          | Ident _ | StarExpr _ => true
          | _ => false
          end
      end
  | _ => true
  end.

(** What the receiver requirement asks of a declaration. *)
Definition recvQualifies (recType : string) (decl : FuncDecl) : bool :=
  match Recv decl with
  | None => bool_decide (recType = "")
  | Some _ => bool_decide (recvTypeName decl = Some recType)
  end.

Definition funcNamesBy (recType : string) (d : Decl) : list string :=
  match d with
  | FuncDeclD decl => if recvQualifies recType decl then [FName decl] else []
  | _ => []
  end.

(** [func (s Stack[T]) Push(x T)] and [func (s *Stack[T]) Pop()]: the
    receiver type of the first is an index expression, that of the second a
    pointer to one. *)
Definition pushDecl : FuncDecl :=
  {| Recv := Some [ {| FType := OtherExpr |} ];
     FName := "Push";
     Type_ := Some {| Params := Some [ {| FType := Ident "T" |} ] |} |}.
Definition popDecl : FuncDecl :=
  {| Recv := Some [ {| FType := StarExpr OtherExpr |} ];
     FName := "Pop";
     Type_ := Some {| Params := Some [] |} |}.
Definition stackFile : File :=
  {| Decls := [FuncDeclD pushDecl; FuncDeclD popDecl] |}.

(** Instances of the [strconv] routines for running queries that never reach
    them (integer and boolean requests, the function filter without
    parameter requirements). *)
Definition noUnquote : string → option string := fun _ => None.
Definition noParseFloat : string → Z → option float := fun _ _ => None.

Definition intLit (text : string) : Expr := BasicLitE {| Kind := INT; Value := text |}.

Definition intBasic (text : string) : BasicLit := {| Kind := INT; Value := text |}.

(** [var x int] under the doc line [// parser]: a tagged spec without
    initializer. *)
Definition noInitSpec : ValueSpec := declare ["x"] (Some ["// parser"]) [].


(** The text of an interpreted string literal: the content between two
    double quotes. *)
Definition quoted (s : string) : string :=
  String "034" (String.append s (String "034" EmptyString)).

Definition floatLit (text : string) : Expr :=
  BasicLitE {| Kind := FLOAT; Value := text |}.
Definition quotedLit (content : string) : Expr :=
  BasicLitE {| Kind := STRING; Value := quoted content |}.
Definition pair (k v : Expr) : Expr := KeyValueExpr k v.

(** [context.Context]. *)
Definition contextType : Expr := SelectorExpr (Ident "context") (Some "Context").

(** [example/example_code.go], as [go/parser] reads it: the import, the
    constant, the [var] group with its doc lines (calls, conversions and
    [&] expressions are [OtherExpr]), the type and the four functions. *)

Definition exampleVars : list Spec :=
  map ValueSpecS
    [ declare ["boolValue"] (Some ["// parser"]) [Ident "true"];
      declare ["stringValue"] (Some ["// parser:str"]) [quotedLit "3"];
      declare ["intValue"] (Some ["// parser"]) [intLit "3"];
      declare ["notParsedInValue"] None [intLit "17"];
      declare ["float64Value"] (Some ["// parser"]) [floatLit "3.14"];
      declare ["float32Value"] (Some ["// parser"]) [OtherExpr];
      declare ["notParsedFloatValue"] (Some ["// parser"]) [Ident "floatConst"];
      declare ["float64SliceValue"] (Some ["// parser"])
        [CompositeLit [floatLit "3.14"; floatLit "0.42"]];
      declare ["stringSliceValue"] (Some ["// parser:str"])
        [CompositeLit [quotedLit "a"; quotedLit "b"; quotedLit "c"]];
      declare ["stringToStringMapValue"] (Some ["// parser:str"])
        [CompositeLit [pair (quotedLit "a") (quotedLit "1");
                       pair (quotedLit "b") (quotedLit "2")]];
      declare ["pointerMapValue"] (Some ["// parser"]) [OtherExpr];
      declare ["intToFloat64MapValue"] (Some ["// parser"])
        [CompositeLit [pair (intLit "3") (floatLit "3.14");
                       pair (intLit "17") (floatLit "42.0")]];
      declare ["_"; "_"; "_"; "_"; "_"; "_"; "_"; "_"; "_"; "_"; "_"] None
        [Ident "stringValue"; Ident "intValue"; Ident "notParsedInValue";
         Ident "float64Value"; Ident "float32Value"; Ident "notParsedFloatValue";
         Ident "float64SliceValue"; Ident "stringSliceValue";
         Ident "stringToStringMapValue"; Ident "pointerMapValue";
         Ident "intToFloat64MapValue"] ].

Definition exampleFuncs : list Decl :=
  map FuncDeclD
    [ {| Recv := Some [ {| FType := StarExpr (Ident "LocalStruct") |} ];
         FName := "usefulFunc1";
         Type_ := Some {| Params := Some [ {| FType := StarExpr contextType |};
                                           {| FType := Ident "string" |} ] |} |};
      {| Recv := Some [ {| FType := Ident "LocalStruct" |} ];
         FName := "usefulFunc2";
         Type_ := Some {| Params := Some [ {| FType := StarExpr contextType |};
                                           {| FType := Ident "string" |} ] |} |};
      {| Recv := Some [ {| FType := Ident "LocalStruct" |} ];
         FName := "usefulFunc3";
         Type_ := Some {| Params := Some [ {| FType := contextType |};
                                           {| FType := Ident "string" |} ] |} |};
      {| Recv := None;
         FName := "usefulFunc4";
         Type_ := Some {| Params := Some [ {| FType := contextType |};
                                           {| FType := StarExpr (Ident "string") |} ] |} |} ].

Definition exampleFile : File :=
  {| Decls :=
       [ GenDeclD [OtherSpec];
         GenDeclD [ValueSpecS (declare ["floatConst"] None [floatLit "0.0"])];
         GenDeclD exampleVars;
         GenDeclD [OtherSpec] ]
       ++ exampleFuncs |}.

(** A file with one parenthesised [var] group holding the given specs. *)
Definition varGroup (specs : list ValueSpec) : File :=
  {| Decls := [GenDeclD (map ValueSpecS specs)] |}.


(** ** Vocabulary of the further properties *)

(** The names bound by the value specs of a file, in source order. *)
Definition specNames (spec : Spec) : list NameIdent :=
  match spec with
  | ValueSpecS s => Names s
  | OtherSpec => []
  end.

Definition declNames (d : Decl) : list NameIdent :=
  match d with
  | GenDeclD specs => specs ≫= specNames
  | _ => []
  end.

Definition fileNames (f : File) : list NameIdent := Decls f ≫= declNames.

(** What the walk owes to a tagged name: the decode step on the matched
    tag, the name and the first initializer of the spec its object points
    to, when there is one. *)
Record Target := { tTag : string; tName : string; tInit : option Expr }.

(** A name is tagged when its object is a value spec whose doc comment has a
    non-empty matched tag. *)
Definition target (docMap : gset string) (n : NameIdent) : option Target :=
  match Obj n with
  | Some (DeclValueSpec vSpec) =>
      match Doc vSpec with
      | Some docs =>
          if bool_decide (findDoc docMap docs = "") then None
          else Some {| tTag := findDoc docMap docs; tName := Name n;
                       tInit := Values vSpec !! 0%nat |}
      | None => None
      end
  | _ => None
  end.

Definition targets (docMap : gset string) (f : File) : list Target :=
  omap (target docMap) (fileNames f).

(** The decode step on a target: a missing initializer is the panic of
    [vSpec.Values[0]]. *)
Definition visitTarget {T : Type} (fn : string → string → Expr → res (option T))
    (tg : Target) (result : list T) : res (list T) :=
  match tInit tg with
  | None => Panic
  | Some val =>
      r ← fn (tTag tg) (tName tg) val;
      Ok (result ++ option_list r)
  end.

(** The record, if any, that a target contributes. *)
Definition outcome {T : Type} (fn : string → string → Expr → res (option T))
    (tg : Target) : list T :=
  match tInit tg with
  | Some val =>
      match fn (tTag tg) (tName tg) val with
      | Ok (Some r) => [r]
      | _ => []
      end
  | None => []
  end.

(** [n] is a tagged name of the file: a name of one of its value specs
    whose object is the value spec [vSpec], with the doc comment [docs] and
    a non-empty matched tag. *)
Definition taggedName (docMap : gset string) (f : File) (n : NameIdent)
    (vSpec : ValueSpecData) (docs : CommentGroup) : Prop :=
  (∃ specs s, GenDeclD specs ∈ Decls f ∧ ValueSpecS s ∈ specs ∧ n ∈ Names s)
  ∧ Obj n = Some (DeclValueSpec vSpec)
  ∧ Doc vSpec = Some docs
  ∧ findDoc docMap docs ≠ "".

(** The smallest value of each integer type. *)
Definition minOf (I : IntType) : Z :=
  if isSigned I then - maxOf I - 1 else 0.

(** The bit size at which a float type is parsed. *)
Definition floatBits (F : FloatType) : Z :=
  match F with Float32 => 32 | Float64 => 64 end.

(** The basic-literal elements of a composite literal, in source order. *)
Definition litElts (elts : list Expr) : list BasicLit :=
  omap (λ e, match e with BasicLitE b => Some b | _ => None end) elts.

(** No two entries of a map have equal keys. *)
Inductive distinctKeys : GoMap → Prop :=
| distinctKeys_nil : distinctKeys []
| distinctKeys_cons (k v : Val) (m : GoMap) :
    (∀ k' v', (k', v') ∈ m → keyEq k k' = false) →
    distinctKeys m →
    distinctKeys ((k, v) :: m).

(** A label that no trimmed doc line can equal to a useful effect: the empty
    one, and one that begins with a slash or a space. *)
Definition unmatchable (label : string) : Prop :=
  match label with
  | EmptyString => True
  | String c _ => c ∈ docCutset
  end.

(** The names of the function declarations of a file, in source order. *)
Definition funcDeclNames (g : File) : list string :=
  omap (λ d, match d with FuncDeclD decl => Some (FName decl) | _ => None end)
       (Decls g).

(** The type name that a parameter contributes to the requirements: the
    name of an identifier, of the pointee of a pointer, or the selected
    name of a qualified type, directly or behind one pointer; any other
    type (slice, map, function, double pointer, ...) contributes none. *)
Definition paramTypeName (par : Field) : option string :=
  match FType par with
  | Ident name => Some name
  | StarExpr (Ident name) => Some name
  | StarExpr (SelectorExpr _ (Some sel)) => Some sel
  | SelectorExpr _ (Some sel) => Some sel
  | _ => None
  end.

(** The verdict of the receiver test when it does not panic. *)
Definition recvPasses (recType : string) (rec : option FieldList) : bool :=
  match recvCheck recType rec with
  | Ok b => b
  | Panic => false
  end.

(** The name that a declaration contributes to the result of the filter. *)
Definition selected (Quote : string → string) (recType : string)
    (paramTypes : list string) (d : Decl) : list string :=
  match d with
  | FuncDeclD decl =>
      if recvPasses recType (Recv decl) && paramsCheck Quote paramTypes (Type_ decl)
      then [FName decl] else []
  | _ => []
  end.

(** A declaration whose receiver list is present and empty. *)
Definition emptyReceiver (d : Decl) : Prop :=
  ∃ decl, d = FuncDeclD decl ∧ Recv decl = Some [].

(** The name that a declaration contributes when its receiver is one the
    filter tests: the receiver requirement of the specification together
    with the parameter requirement. *)
Definition qualifying (Quote : string → string) (recType : string)
    (paramTypes : list string) (d : Decl) : list string :=
  match d with
  | FuncDeclD decl =>
      if recvQualifies recType decl && paramsCheck Quote paramTypes (Type_ decl)
      then [FName decl] else []
  | _ => []
  end.

(** [intValue = 3] under the doc line [// parser], alone in a [var] group,
    and the record that an [int64] scalar query returns for it. *)
Definition tinySpecData : ValueSpecData :=
  {| Doc := Some ["// parser"]; Values := [intLit "3"] |}.
Definition tinyName : NameIdent :=
  {| Name := "intValue"; Obj := Some (DeclValueSpec tinySpecData) |}.
Definition tinyFile : File :=
  varGroup [declare ["intValue"] (Some ["// parser"]) [intLit "3"]].
Definition tinyRecord : LitValue :=
  {| lvDoc := "parser"; lvName := "intValue"; lvValue := VInt Int64 3 |}.

(** [map[int64]int64{1: 2, 1: 5}] and the record of its decode. *)
Definition dupMapElts : list Expr :=
  [kv (intBasic "1") (intBasic "2"); kv (intBasic "1") (intBasic "5")].
Definition dupMapRecord : MapLitValue :=
  {| mvDoc := "parser"; mvName := "m"; mvValue := [(VInt Int64 1, VInt Int64 5)] |}.

(** A name whose doc comment is [//] followed by [// parser], in a spec
    without initializer. *)
Definition maskedSpecData : ValueSpecData :=
  {| Doc := Some ["//"; "// parser"]; Values := [] |}.
Definition maskedName : NameIdent :=
  {| Name := "x"; Obj := Some (DeclValueSpec maskedSpecData) |}.

(** * Properties *)

(** ** Loops and outcomes *)

Lemma forRange_app {A S : Type} (body : A → S → res S) (l1 l2 : list A) (s : S) :
  forRange body (l1 ++ l2) s = (s' ← forRange body l1 s; forRange body l2 s').
Proof.
  revert s. induction l1 as [|x l1 IH]; intros s; simpl; [done|].
  destruct (body x s) as [|s1]; simpl; [done|]. apply IH.
Qed.

Lemma forRange_panic {A S : Type} (body : A → S → res S) (l : list A) (x : A) (s : S) :
  x ∈ l → (∀ s0, body x s0 = Panic) → forRange body l s = Panic.
Proof.
  intros Hin Hx. revert s. induction l as [|y l IH]; intros s.
  - by apply elem_of_nil in Hin.
  - simpl. apply elem_of_cons in Hin as [->|Hin].
    + by rewrite Hx.
    + destruct (body y s); simpl; [done|by apply IH].
Qed.

Lemma forRange_total {A S : Type} (body : A → S → res S) (l : list A) (s : S) :
  (∀ x s0, x ∈ l → body x s0 ≠ Panic) → forRange body l s ≠ Panic.
Proof.
  revert s. induction l as [|x l IH]; intros s Hb; simpl; [done|].
  destruct (body x s) as [|s1] eqn:E; simpl.
  - exfalso. eapply Hb; [left|exact E].
  - apply IH. intros y s0 Hy. apply Hb. by right.
Qed.

Lemma forRange_skip {A S : Type} (body : A → S → res S) (l : list A) (s : S) :
  (∀ x s0, x ∈ l → body x s0 = Ok s0) → forRange body l s = Ok s.
Proof.
  induction l as [|x l IH]; intros Hb; simpl; [done|].
  rewrite Hb by left. simpl. apply IH. intros y s0 Hy. apply Hb. by right.
Qed.

Lemma assertType_Ok (v w : Val) (T : LitType) :
  assertType v T = Ok w → w = v ∧ typeOf v = T.
Proof.
  unfold assertType. case_bool_decide; [|done]. intros [= <-]. done.
Qed.

Lemma assertType_same (v : Val) : assertType v (typeOf v) = Ok v.
Proof. unfold assertType. by rewrite bool_decide_eq_true_2. Qed.

(** ** The literal decoder *)

Lemma parseUint_outcome (I : IntType) (s : string) :
  parseUint I s = Ok None
  ∨ parseUint I s = Panic
  ∨ ∃ z, I = Uint64 ∧ parseUint I s = Ok (Some (VInt Uint64 z)).
Proof.
  unfold parseUint.
  destruct I; try (by left);
    destruct (strconv.ParseUint s _) as [z [e|]]; try (by left);
    unfold assertType; simpl; eauto.
Qed.

Lemma parseInt_outcome (I : IntType) (s : string) :
  parseInt I s = Ok None
  ∨ parseInt I s = Panic
  ∨ ∃ z, I = Int64 ∧ parseInt I s = Ok (Some (VInt Int64 z)).
Proof.
  unfold parseInt.
  destruct I; try (by left);
    destruct (strconv.ParseInt s _) as [z [e|]]; try (by left);
    unfold assertType; simpl; eauto.
Qed.

Lemma parseIntLit_outcome (I : IntType) (val : BasicLit) :
  parseIntLit I val = Ok None
  ∨ parseIntLit I val = Panic
  ∨ ∃ z, wide (TInt I) = true ∧ parseIntLit I val = Ok (Some (VInt I z)).
Proof.
  unfold parseIntLit. case_bool_decide; [by left|].
  destruct I;
    match goal with
    | |- context [parseUint ?i ?t] =>
        destruct (parseUint_outcome i t) as [Hp|[Hp|(z & HI & Hp)]]
    | |- context [parseInt ?i ?t] =>
        destruct (parseInt_outcome i t) as [Hp|[Hp|(z & HI & Hp)]]
    end;
    try discriminate HI; rewrite Hp; eauto.
Qed.

Section DecoderFacts.

Variable Unquote : string → option string.
Variable ParseFloat : string → Z → option float.

Lemma parseFloatLit_outcome (F : FloatType) (val : BasicLit) :
  parseFloatLit ParseFloat F val = Ok None
  ∨ parseFloatLit ParseFloat F val = Panic
  ∨ ∃ x, F = Float64 ∧ parseFloatLit ParseFloat F val = Ok (Some (VFloat Float64 x)).
Proof.
  unfold parseFloatLit, parseFloat. case_bool_decide; [by left|].
  destruct F; destruct (ParseFloat _ _); try (by left);
    unfold assertType; simpl; eauto.
Qed.

(** A successful decode happens only at a wide requested type, and the value
    has that type. *)
Lemma parseBasicLit_Some (V : LitType) (val : BasicLit) (v : Val) :
  parseBasicLit Unquote ParseFloat V val = Ok (Some v) → wide V = true ∧ typeOf v = V.
Proof.
  destruct V as [|i|f|]; simpl.
  - case_bool_decide; [done|]. destruct (Unquote _); [|done].
    simpl. intros [= <-]. done.
  - destruct (parseIntLit_outcome i val) as [H|[H|(z & Hw & H)]]; rewrite H; simpl; try done.
    rewrite assertType_same. simpl. intros [= <-]. done.
  - destruct (parseFloatLit_outcome f val) as [H|[H|(z & -> & H)]]; rewrite H; simpl; try done.
    intros [= <-]. done.
  - done.
Qed.

(** At a wide requested type the decoder never panics. *)
Lemma parseBasicLit_wide (V : LitType) (val : BasicLit) :
  wide V = true → parseBasicLit Unquote ParseFloat V val ≠ Panic.
Proof.
  destruct V as [|i|f|]; simpl; intros Hw.
  - case_bool_decide; [done|]. by destruct (Unquote _).
  - destruct (parseIntLit_outcome i val) as [H|[H|(z & _ & H)]]; rewrite H; simpl; try done.
    + exfalso. revert H. unfold parseIntLit. case_bool_decide; [done|].
      destruct i; try discriminate Hw.
      * unfold parseUint. destruct (strconv.ParseUint _ _) as [? [?|]]; done.
      * unfold parseInt. destruct (strconv.ParseInt _ _) as [? [?|]]; done.
    + by rewrite assertType_same.
  - destruct f; try discriminate Hw.
    unfold parseFloatLit, parseFloat. case_bool_decide; [done|].
    by destruct (ParseFloat _ _).
  - done.
Qed.

(** C7: for every requested type and every basic literal whose token kind is
    not the literal category of that type (a string literal requested as an
    integer, an integer literal requested as a float, any literal requested
    as a boolean), the literal decode is a no-match: it neither panics nor
    yields a value, and the scalar decode step emits no record. *)
Theorem C7_category_mismatch_is_no_match
    (V : LitType) (val : BasicLit) (doc name : string) :
  litCategory V ≠ Some (Kind val) →
  parseBasicLit Unquote ParseFloat V val = Ok None
  ∧ basicFn Unquote ParseFloat V doc name (BasicLitE val) = Ok None.
Proof.
  intros Hcat.
  assert (parseBasicLit Unquote ParseFloat V val = Ok None) as H.
  { destruct V as [|i|f|]; simpl in *.
    - rewrite bool_decide_eq_true_2; [done|congruence].
    - unfold parseIntLit. rewrite bool_decide_eq_true_2; [done|congruence].
    - unfold parseFloatLit. rewrite bool_decide_eq_true_2; [done|congruence].
    - done. }
  split; [done|]. unfold basicFn. by rewrite H.
Qed.

(** C10: given an identifier initializer, the boolean scalar decode step
    emits a record exactly when the identifier's name is one of the twelve
    tokens of [strconv.ParseBool], with the boolean that token spells; at
    every other requested type it emits no record. *)
Theorem C10_identifier_initializer (V : LitType) (doc name v : string) :
  basicFn Unquote ParseFloat V doc name (Ident v) =
    if bool_decide (V = TBool) then
      if bool_decide (v ∈ trueTokens)
      then Ok (Some {| lvDoc := doc; lvName := name; lvValue := VBool true |})
      else if bool_decide (v ∈ falseTokens)
      then Ok (Some {| lvDoc := doc; lvName := name; lvValue := VBool false |})
      else Ok None
    else Ok None.
Proof.
  unfold basicFn. case_bool_decide as HV; simpl; [subst V|done].
  unfold parseBool, strconv.ParseBool, trueTokens, falseTokens.
  repeat case_bool_decide; done.
Qed.

End DecoderFacts.

(** ** Decimal texts through [strconv] *)

Lemma isDec_byte (c : ascii) :
  isDec c = true → 0 ≤ strconv.byteOf c - 48 ≤ 9.
Proof. unfold isDec. intros [H1 H2]%andb_prop. lia. Qed.

Lemma decValue_ge (s : string) (n : Z) :
  allDec s = true → 0 ≤ n → n ≤ decValue s n.
Proof.
  revert n. induction s as [|c s IH]; intros n Hs Hn; simpl in *; [lia|].
  apply andb_prop in Hs as [Hc Hs]. apply isDec_byte in Hc.
  etrans; [|apply IH; [done|lia]]. lia.
Qed.

(** On a text of decimal digits the loop of [ParseUint] computes the number
    the digits spell, or reports a range error when that number exceeds the
    largest value of the bit size. *)
Lemma digits_dec (maxVal : Z) (s : string) (n : Z) :
  allDec s = true → 0 ≤ n ≤ maxVal → maxVal ≤ strconv.maxUint64 →
  strconv.digits 10 maxVal s n =
    if decValue s n <=? maxVal then (decValue s n, None)
    else (maxVal, Some strconv.ErrRange).
Proof.
  unfold strconv.maxUint64. revert n.
  induction s as [|c s IH]; intros n Hs Hn Hmax; simpl in *.
  - rewrite (proj2 (Z.leb_le _ _)); [done|lia].
  - apply andb_prop in Hs as [Hc Hs].
    pose proof (isDec_byte c Hc) as Hd. unfold isDec in Hc. rewrite Hc.
    pose proof (decValue_ge s (10 * n + (strconv.byteOf c - 48)) Hs ltac:(lia)) as Hge.
    set (d := strconv.byteOf c - 48) in *.
    destruct (d >=? 10) eqn:E1; [lia|].
    change (strconv.maxUint64 `div` 10 + 1) with 1844674407370955162.
    destruct (n >=? 1844674407370955162) eqn:E2.
    { rewrite (proj2 (Z.leb_gt _ _)); [done|lia]. }
    unfold strconv.wrap64. rewrite (Z.mod_small (n * 10)) by lia.
    destruct (decide (n * 10 + d < 2 ^ 64)) as [Hlt|Hge'].
    + rewrite (Z.mod_small (n * 10 + d)) by lia.
      destruct (n * 10 + d <? n * 10) eqn:E3; [lia|].
      destruct (n * 10 + d >? maxVal) eqn:E4; simpl.
      * rewrite (proj2 (Z.leb_gt _ _)); [done|lia].
      * replace (10 * n + d) with (n * 10 + d) in * by lia.
        apply IH; [done|lia|done].
    + assert ((n * 10 + d) `mod` 2 ^ 64 = n * 10 + d - 2 ^ 64) as ->.
      { symmetry. apply (Z.mod_unique_pos _ _ 1); lia. }
      destruct (n * 10 + d - 2 ^ 64 <? n * 10) eqn:E3; [|lia]. simpl.
      rewrite (proj2 (Z.leb_gt _ _)); [done|lia].
Qed.

(** A byte that is not a decimal digit makes the loop fail. *)
Lemma digits_not_dec (maxVal : Z) (s : string) (n : Z) :
  allDec s = false → (strconv.digits 10 maxVal s n).2 ≠ None.
Proof.
  revert n. induction s as [|c s IH]; intros n Hs; simpl in *; [done|].
  unfold isDec in Hs.
  destruct ((48 <=? strconv.byteOf c) && (strconv.byteOf c <=? 57)) eqn:Hc; simpl in Hs.
  - destruct (_ >=? 10); [by simpl|]. destruct (n >=? _); [by simpl|].
    destruct (_ || _); [by simpl|]. by apply IH.
  - destruct ((97 <=? _) && _) eqn:Hl; [|by simpl].
    apply andb_prop in Hl as [Hl _].
    destruct (_ >=? 10) eqn:E; [by simpl|lia].
Qed.

Lemma ParseUint_dec (s : string) (bitSize : Z) :
  bitSize ∈ bitSizes → s ≠ "" → allDec s = true →
  strconv.ParseUint s bitSize =
    if decValue s 0 <=? 2 ^ bitSize - 1 then (decValue s 0, None)
    else (2 ^ bitSize - 1, Some strconv.ErrRange).
Proof.
  intros Hb Hne Hs. unfold strconv.ParseUint.
  rewrite bool_decide_eq_false_2 by done.
  assert (strconv.wrap64 (strconv.wrap64 (Z.shiftl 1 bitSize) - 1) = 2 ^ bitSize - 1) as ->.
  { unfold bitSizes in Hb. set_unfold in Hb.
    destruct Hb as [->|[->|[->|[->|[]]]]]; reflexivity. }
  apply digits_dec; [done| |].
  - split; [done|]. assert (0 < 2 ^ bitSize); [|lia].
    apply Z.pow_pos_nonneg; [lia|]. unfold bitSizes in Hb. set_unfold in Hb. lia.
  - unfold bitSizes in Hb. set_unfold in Hb. unfold strconv.maxUint64.
    destruct Hb as [->|[->|[->|[->|[]]]]]; lia.
Qed.

Lemma bitSizes_64 : 64 ∈ bitSizes.
Proof. unfold bitSizes. set_solver. Qed.

Lemma ParseUint_not_dec (s : string) (bitSize : Z) :
  allDec s = false → (strconv.ParseUint s bitSize).2 ≠ None.
Proof.
  intros Hs. unfold strconv.ParseUint. case_bool_decide; [done|].
  by apply digits_not_dec.
Qed.

Lemma toInt64_small (z : Z) : - 2 ^ 63 ≤ z < 2 ^ 63 → strconv.toInt64 z = z.
Proof. intros Hz. unfold strconv.toInt64. rewrite Z.mod_small; lia. Qed.

Lemma isDec_not_sign (c : ascii) :
  isDec c = true → c ≠ "+"%char ∧ c ≠ "-"%char.
Proof. intros Hc. split; intros ->; discriminate Hc. Qed.

Lemma ParseInt_dec (s : string) (bitSize : Z) :
  bitSize ∈ bitSizes → s ≠ "" → allDec s = true →
  strconv.ParseInt s bitSize =
    if decValue s 0 <=? 2 ^ (bitSize - 1) - 1 then (decValue s 0, None)
    else (2 ^ (bitSize - 1) - 1, Some strconv.ErrRange).
Proof.
  intros Hb Hne Hs. unfold strconv.ParseInt.
  destruct s as [|c0 rest]; [done|].
  pose proof Hs as Hc. simpl in Hc. apply andb_prop in Hc as [Hc _].
  apply isDec_not_sign in Hc as [Hplus Hminus].
  rewrite !bool_decide_eq_false_2 by done.
  rewrite (ParseUint_dec _ 64) by first [done | apply bitSizes_64].
  pose proof (decValue_ge (String c0 rest) 0 Hs ltac:(done)) as Hge.
  set (N := decValue (String c0 rest) 0) in *.
  unfold bitSizes in Hb. set_unfold in Hb.
  destruct Hb as [->|[->|[->|[->|[]]]]];
    change (strconv.wrap64 _) with (2 ^ 7) || change (strconv.wrap64 _) with (2 ^ 15)
    || change (strconv.wrap64 _) with (2 ^ 31) || change (strconv.wrap64 _) with (2 ^ 63);
    simpl Z.sub; simpl negb; simpl andb;
    (destruct (N <=? 2 ^ 64 - 1) eqn:E1;
     [ destruct (N >=? _) eqn:E2;
       [ rewrite (proj2 (Z.leb_gt _ _)) by lia; rewrite toInt64_small by lia; done
       | rewrite (proj2 (Z.leb_le _ _)) by lia; rewrite toInt64_small by lia; done ]
     | rewrite (proj2 (Z.leb_gt _ _)) by lia; simpl; rewrite toInt64_small by lia; done ]).
Qed.

Lemma ParseInt_neg_dec (s : string) (bitSize : Z) :
  bitSize ∈ bitSizes → s ≠ "" → allDec s = true →
  strconv.ParseInt (String "-" s) bitSize =
    if decValue s 0 <=? 2 ^ (bitSize - 1) then (- decValue s 0, None)
    else (- 2 ^ (bitSize - 1), Some strconv.ErrRange).
Proof.
  intros Hb Hne Hs. unfold strconv.ParseInt.
  rewrite bool_decide_eq_false_2 by done. rewrite bool_decide_eq_true_2 by done.
  rewrite (ParseUint_dec _ 64) by first [done | apply bitSizes_64].
  pose proof (decValue_ge s 0 Hs ltac:(done)) as Hge.
  set (N := decValue s 0) in *.
  unfold bitSizes in Hb. set_unfold in Hb.
  destruct Hb as [->|[->|[->|[->|[]]]]];
    change (strconv.wrap64 _) with (2 ^ 7) || change (strconv.wrap64 _) with (2 ^ 15)
    || change (strconv.wrap64 _) with (2 ^ 31) || change (strconv.wrap64 _) with (2 ^ 63);
    simpl Z.sub; simpl negb; simpl andb;
    (destruct (N <=? 2 ^ 64 - 1) eqn:E1;
     [ destruct (N >? _) eqn:E2;
       [ rewrite (proj2 (Z.leb_gt _ _)) by lia; done
       | rewrite (proj2 (Z.leb_le _ _)) by lia;
         unfold strconv.toInt64; do 2 f_equal;
         Z.to_euclidean_division_equations; lia ]
     | rewrite (proj2 (Z.leb_gt _ _)) by lia; done ]).
Qed.

(** A range error of [ParseUint] comes with the largest value. *)
Lemma digits_range (maxVal : Z) (s : string) (n : Z) :
  (strconv.digits 10 maxVal s n).2 = Some strconv.ErrRange →
  (strconv.digits 10 maxVal s n).1 = maxVal.
Proof.
  revert n. induction s as [|c s IH]; intros n; simpl; [done|].
  destruct (if (48 <=? _) && _ then _ else _) as [d|]; [|done].
  destruct (d >=? 10); [done|]. destruct (n >=? _); [done|].
  destruct (_ || _); [done|]. apply IH.
Qed.

Lemma ParseInt_not_dec (s : string) (bitSize : Z) :
  bitSize ∈ bitSizes →
  allDec (stripSign s) = false → (strconv.ParseInt s bitSize).2 ≠ None.
Proof.
  unfold strconv.ParseInt, stripSign. destruct s as [|c0 rest]; [done|].
  intros Hb Hs.
  assert ((if bool_decide (c0 = "+"%char) then rest
           else if bool_decide (c0 = "-"%char) then rest else String c0 rest)
          = (if bool_decide (c0 = "+"%char) || bool_decide (c0 = "-"%char)
             then rest else String c0 rest)) as -> by (by repeat case_bool_decide).
  set (t := if _ || _ then rest else String c0 rest) in *.
  pose proof (ParseUint_not_dec _ 64 Hs) as Hu. revert Hu.
  unfold strconv.ParseUint. destruct (bool_decide (t = "")); [by simpl|].
  match goal with |- context [strconv.digits 10 ?m ?t 0] =>
    pose proof (digits_range m t 0) as Hr;
    destruct (strconv.digits 10 m t 0) as [un [[]|]] end; simpl; try done.
  intros _. simpl in Hr. rewrite Hr by done.
  unfold bitSizes in Hb. set_unfold in Hb.
  destruct Hb as [->|[->|[->|[->|[]]]]]; by destruct (bool_decide (c0 = "-"%char)).
Qed.

(** ** Integer requests *)

Section IntegerDecode.

Variable Unquote : string → option string.
Variable ParseFloat : string → Z → option float.

(** An integer literal in decimal digits: a number above the largest value
    of the requested type is a no-match; a number within range is decoded at
    [uint64] and [int64], and at the narrower types the type assertion on
    the [uint64] or [int64] that [strconv] returned panics. *)
Lemma decode_decimal (I : IntType) (text : string) :
  text ≠ "" → allDec text = true →
  parseBasicLit Unquote ParseFloat (TInt I) {| Kind := INT; Value := text |} =
    if decValue text 0 <=? maxOf I
    then if wide (TInt I) then Ok (Some (VInt I (decValue text 0))) else Panic
    else Ok None.
Proof.
  intros Hne Hs.
  destruct I; simpl; unfold parseIntLit; simpl; unfold parseUint, parseInt;
    first [ rewrite ParseUint_dec by first [done | unfold bitSizes; set_solver]
          | rewrite ParseInt_dec by first [done | unfold bitSizes; set_solver] ];
    repeat match goal with
           | |- context [?n <=? ?m] => destruct (n <=? m) eqn:?
           end;
    first [reflexivity | lia].
Qed.

(** A text with a byte that is not a decimal digit (a base prefix, an
    underscore, a letter) is a no-match at every integer type. *)
Lemma decode_not_decimal (I : IntType) (text : string) :
  allDec (if isSigned I then stripSign text else text) = false →
  parseBasicLit Unquote ParseFloat (TInt I) {| Kind := INT; Value := text |} = Ok None.
Proof.
  intros Hs.
  destruct I; simpl in *; unfold parseIntLit; simpl; unfold parseUint, parseInt;
    match goal with
    | |- context [strconv.ParseUint ?t ?b] =>
        pose proof (ParseUint_not_dec t b Hs) as He;
        destruct (strconv.ParseUint t b) as [z [e|]]
    | |- context [strconv.ParseInt ?t ?b] =>
        pose proof (ParseInt_not_dec t b ltac:(unfold bitSizes; set_solver) Hs) as He;
        destruct (strconv.ParseInt t b) as [z [e|]]
    end; done.
Qed.

(** C5, evaluated: the decimal text of the largest value of the requested
    type decodes to that value at [uint64] and [int64], and makes the decoder
    panic at the six narrower types (the failed type assertion); the text of
    that value plus one is a no-match at all eight types. *)
Theorem C5_largest_value_and_successor (I : IntType) :
  parseBasicLit Unquote ParseFloat (TInt I)
      {| Kind := INT; Value := pretty (maxOf I) |}
    = (if wide (TInt I) then Ok (Some (VInt I (maxOf I))) else Panic)
  ∧ parseBasicLit Unquote ParseFloat (TInt I)
      {| Kind := INT; Value := pretty (maxOf I + 1) |}
    = Ok None.
Proof. destruct I; split; vm_compute; reflexivity. Qed.

End IntegerDecode.

(** ** The declaration walker *)

(** [TrimLeft] drops exactly the longest prefix made of cutset bytes. *)
Lemma TrimLeft_spec (s : string) (cutset : list ascii) :
  ∃ p : string,
    s = String.append p (TrimLeft s cutset)
    ∧ Forall (λ c, c ∈ cutset) (list_ascii_of_string p)
    ∧ match TrimLeft s cutset with
      | String c _ => c ∉ cutset
      | EmptyString => True
      end.
Proof.
  induction s as [|c s (p & Hs & Hp & Hhd)]; simpl.
  - by exists EmptyString.
  - case_bool_decide as Hc.
    + exists (String c p). split_and!; [exact (f_equal (String c) Hs)|by constructor|done].
    + by exists EmptyString.
Qed.

Section WalkFacts.

Context {T : Type}.
Variable docMap : gset string.
Variable fn : string → string → Expr → res (option T).

Lemma findDoc_matched (docs : CommentGroup) (t : string) :
  matchedTag docMap docs t → findDoc docMap docs = t.
Proof.
  intros (pre & d & post & -> & Hpre & Ht & Hin).
  induction pre as [|d' pre IH]; simpl.
  - rewrite Ht. by rewrite bool_decide_eq_true_2.
  - rewrite bool_decide_eq_false_2 by (apply Hpre; left).
    apply IH. intros d0 Hd0. apply Hpre. by right.
Qed.

Lemma findDoc_noTag (docs : CommentGroup) :
  noTag docMap docs → findDoc docMap docs = "".
Proof.
  unfold noTag. induction docs as [|d docs IH]; intros Hno; simpl; [done|].
  rewrite bool_decide_eq_false_2 by (apply Hno; left).
  apply IH. intros d0 Hd0. apply Hno. by right.
Qed.

(** Every doc comment either has no line in the tag set or has a matched
    tag, which is what the scan returns. *)
Lemma findDoc_cases (docs : CommentGroup) :
  noTag docMap docs ∨ matchedTag docMap docs (findDoc docMap docs).
Proof.
  induction docs as [|d docs IH]; simpl.
  - left. intros d Hd. by apply elem_of_nil in Hd.
  - case_bool_decide as Hd.
    + right. exists [], d, docs. split_and!; try done.
      intros d' Hd'. by apply elem_of_nil in Hd'.
    + destruct IH as [Hno|(pre & d1 & post & -> & Hpre & Ht & Hin)].
      * left. intros d0 [->|Hd0]%elem_of_cons; [done|by apply Hno].
      * right. exists (d :: pre), d1, post. split_and!; try done.
        intros d0 [->|Hd0]%elem_of_cons; [done|by apply Hpre].
Qed.

(** The visit of one name as a function of the scan of its doc comment. *)
Lemma visitName_found (n : NameIdent) (vSpec : ValueSpecData) (docs : CommentGroup)
    (result : list T) :
  Obj n = Some (DeclValueSpec vSpec) → Doc vSpec = Some docs →
  visitName docMap fn n result =
    if bool_decide (findDoc docMap docs = "") then Ok result
    else match Values vSpec !! 0%nat with
         | None => Panic
         | Some val =>
             r ← fn (findDoc docMap docs) (Name n) val;
             Ok (result ++ option_list r)
         end.
Proof.
  intros HObj HDoc. unfold visitName. rewrite HObj, HDoc.
  destruct docs as [|d docs]; [done|].
  rewrite bool_decide_eq_false_2 by (simpl; lia).
  case_bool_decide; [done|].
  destruct (Values vSpec !! 0%nat); [|done].
  destruct (fn _ _ _) as [|[r|]]; simpl; [done|done|by rewrite app_nil_r].
Qed.


(** A tagged name whose spec has no initializer makes the visit panic. *)
Lemma visitName_no_initializer (n : NameIdent) (vSpec : ValueSpecData)
    (docs : CommentGroup) (t : string) (result : list T) :
  Obj n = Some (DeclValueSpec vSpec) → Doc vSpec = Some docs →
  matchedTag docMap docs t → t ≠ "" → Values vSpec = [] →
  visitName docMap fn n result = Panic.
Proof.
  intros HObj HDoc Hm Hne Hvals.
  rewrite (visitName_found n vSpec docs) by done.
  rewrite (findDoc_matched docs t Hm), Hvals.
  by rewrite bool_decide_eq_false_2.
Qed.

Lemma walkDecls_panic (f : File) (specs : list Spec) (s : ValueSpec) (n : NameIdent) :
  GenDeclD specs ∈ Decls f → ValueSpecS s ∈ specs → n ∈ Names s →
  (∀ result, visitName docMap fn n result = Panic) →
  walkDecls docMap fn f = Panic.
Proof.
  intros Hd Hs Hn Hp. unfold walkDecls.
  apply (forRange_panic _ _ (GenDeclD specs)); [done|]. intros r1. simpl.
  apply (forRange_panic _ _ (ValueSpecS s)); [done|]. intros r2. simpl.
  by apply (forRange_panic _ _ n).
Qed.

(** Conversely the walk returns when the decode step never panics and every
    tagged name has an initializer. *)
Lemma walkDecls_total (f : File) :
  (∀ doc name val, fn doc name val ≠ Panic) →
  (∀ specs s n vSpec docs,
     GenDeclD specs ∈ Decls f → ValueSpecS s ∈ specs → n ∈ Names s →
     Obj n = Some (DeclValueSpec vSpec) → Doc vSpec = Some docs →
     findDoc docMap docs ≠ "" → Values vSpec ≠ []) →
  ∃ result, walkDecls docMap fn f = Ok result.
Proof.
  intros Hfn Hvals.
  assert (walkDecls docMap fn f ≠ Panic) as Hne;
    [|destruct (walkDecls docMap fn f); [done|eauto]].
  unfold walkDecls. apply forRange_total. intros d r1 Hd.
  destruct d as [specs| |]; simpl; [|done..].
  apply forRange_total. intros sp r2 Hsp.
  destruct sp as [s|]; simpl; [|done].
  apply forRange_total. intros n r3 Hn.
  unfold visitName.
  destruct (Obj n) as [[vSpec|]|] eqn:HObj; [|done..].
  destruct (Doc vSpec) as [docs|] eqn:HDoc; [|done].
  case_bool_decide; [done|]. case_bool_decide as Hf; [done|].
  pose proof (Hvals specs s n vSpec docs Hd Hsp Hn HObj HDoc Hf) as Hv.
  destruct (Values vSpec) as [|val vals]; [done|]. simpl.
  pose proof (Hfn (findDoc docMap docs) (Name n) val) as Hfn'.
  destruct (fn _ _ _) as [|[r|]]; done.
Qed.

End WalkFacts.

Section QueryFacts.

Variable Unquote : string → option string.
Variable ParseFloat : string → Z → option float.

(** C9: when some name of a variable declaration has a doc comment whose
    matched tag is a non-empty member of the tag set and its spec has no
    initializer at all (as in [var x int]), reading [vSpec.Values[0]] panics:
    the walk panics for every decode step, and so does every scalar,
    sequence and mapping query, instead of skipping the declaration. *)
Theorem C9_tagged_declaration_without_initializer_panics
    (docMap : gset string) (f : File) (specs : list Spec) (s : ValueSpec)
    (n : NameIdent) (vSpec : ValueSpecData) (docs : CommentGroup) (t : string) :
  GenDeclD specs ∈ Decls f → ValueSpecS s ∈ specs → n ∈ Names s →
  Obj n = Some (DeclValueSpec vSpec) → Doc vSpec = Some docs →
  matchedTag docMap docs t → t ≠ "" → Values vSpec = [] →
  (∀ (T : Type) (fn : string → string → Expr → res (option T)),
     walkDecls docMap fn f = Panic)
  ∧ (∀ V, getBasicValues Unquote ParseFloat V f docMap = Panic)
  ∧ (∀ V, getSliceValues Unquote ParseFloat V f docMap = Panic)
  ∧ (∀ K V, getMapValues Unquote ParseFloat K V f docMap = Panic).
Proof.
  intros Hd Hs Hn HObj HDoc Hm Hne Hvals.
  assert (∀ (T : Type) (fn : string → string → Expr → res (option T)),
            walkDecls docMap fn f = Panic) as Hwalk.
  { intros T fn. apply (walkDecls_panic docMap fn f specs s n); try done.
    intros result. by apply (visitName_no_initializer docMap fn n vSpec docs t). }
  split_and!; [done|intros V; apply Hwalk..|intros K V; apply Hwalk].
Qed.

(** C2, evaluated: for [a, b = 1, 2] under the tag [parser], the scalar
    query at [int64] pairs both names with the first initializer: the record
    of [b] holds 1, not 2. *)
Theorem C2_every_name_reads_the_first_initializer :
  GetBasicValues Unquote ParseFloat (TInt Int64)
    (varGroup [declare ["a"; "b"] (Some ["// parser"]) [intLit "1"; intLit "2"]])
    ["parser"]
  = Ok [ {| lvDoc := "parser"; lvName := "a"; lvValue := VInt Int64 1 |};
         {| lvDoc := "parser"; lvName := "b"; lvValue := VInt Int64 1 |} ].
Proof. vm_compute. reflexivity. Qed.

(** In the tree of the parser every name of a spec is visited with the
    spec's first initializer, whatever the position of the name. *)
Lemma visitName_declared {T : Type} (docMap : gset string)
    (fn : string → string → Expr → res (option T))
    (names : list string) (docs : CommentGroup) (values : list Expr)
    (n : NameIdent) (result : list T) :
  n ∈ Names (declare names (Some docs) values) →
  visitName docMap fn n result =
    if bool_decide (findDoc docMap docs = "") then Ok result
    else match values !! 0%nat with
         | None => Panic
         | Some val =>
             r ← fn (findDoc docMap docs) (Name n) val;
             Ok (result ++ option_list r)
         end.
Proof.
  simpl. intros (name & -> & Hin)%list_elem_of_fmap.
  by rewrite (visitName_found docMap fn _ {| Doc := Some docs; Values := values |} docs).
Qed.

End QueryFacts.

(** ** Go maps *)

(** [==] on floats holds between two zeros, two infinities of one sign, and
    two finite data with the same sign, mantissa and exponent. *)
Lemma SFeqb_true (x y : float) :
  SFeqb x y = true ↔
    match x, y with
    | S754_zero _, S754_zero _ => True
    | S754_infinity s1, S754_infinity s2 => s1 = s2
    | S754_finite s1 m1 e1, S754_finite s2 m2 e2 => s1 = s2 ∧ m1 = m2 ∧ e1 = e2
    | _, _ => False
    end.
Proof.
  unfold SFeqb, SFcompare.
  destruct x as [s1|s1| |s1 m1 e1], y as [s2|s2| |s2 m2 e2];
    try destruct s1; try destruct s2; try (by split; intuition congruence).
  - change (Pos.compare_cont Eq m1 m2) with (Pos.compare m1 m2).
    destruct (Z.compare_spec e1 e2) as [->| |];
      [|split; [done|intros (_ & _ & ?); lia]..].
    destruct (Pos.compare_spec m1 m2) as [->| |]; simpl;
      split; try done; intros (_ & ? & _); lia.
  - change (Pos.compare_cont Eq m1 m2) with (Pos.compare m1 m2).
    destruct (Z.compare_spec e1 e2) as [->| |];
      [|split; [done|intros (_ & _ & ?); lia]..].
    destruct (Pos.compare_spec m1 m2) as [->| |]; simpl;
      split; try done; intros (_ & ? & _); lia.
Qed.

Lemma SFeqb_sym (x y : float) : SFeqb x y = true → SFeqb y x = true.
Proof.
  rewrite !SFeqb_true. destruct x, y; try done; intuition congruence.
Qed.

Lemma SFeqb_trans (x y z : float) :
  SFeqb x y = true → SFeqb y z = true → SFeqb x z = true.
Proof.
  rewrite !SFeqb_true. destruct x, y, z; try done; intuition congruence.
Qed.

(** Key equality is symmetric and transitive; it is reflexive except on a
    NaN. *)
Lemma keyEq_sym (a b : Val) : keyEq a b = true → keyEq b a = true.
Proof.
  destruct a, b; simpl; try done.
  - intros ->%bool_decide_eq_true. by apply bool_decide_eq_true.
  - intros [->%bool_decide_eq_true ->%Z.eqb_eq]%andb_prop.
    by rewrite bool_decide_eq_true_2, Z.eqb_refl.
  - intros [->%bool_decide_eq_true H]%andb_prop.
    rewrite bool_decide_eq_true_2 by done. by apply SFeqb_sym.
  - by destruct b, b0.
Qed.

Lemma keyEq_trans (a b c : Val) :
  keyEq a b = true → keyEq b c = true → keyEq a c = true.
Proof.
  destruct a, b, c; simpl; try done.
  - intros ->%bool_decide_eq_true ->%bool_decide_eq_true.
    by apply bool_decide_eq_true.
  - intros [->%bool_decide_eq_true ->%Z.eqb_eq]%andb_prop
           [->%bool_decide_eq_true ->%Z.eqb_eq]%andb_prop.
    by rewrite bool_decide_eq_true_2, Z.eqb_refl.
  - intros [->%bool_decide_eq_true H1]%andb_prop [->%bool_decide_eq_true H2]%andb_prop.
    rewrite bool_decide_eq_true_2 by done. by apply (SFeqb_trans _ x0).
  - by destruct b, b0, b1.
Qed.

Lemma keyEq_refl_l (a b : Val) : keyEq a b = true → keyEq a a = true.
Proof. intros H. apply (keyEq_trans a b a); [done|by apply keyEq_sym]. Qed.

Lemma keyEq_refl_r (a b : Val) : keyEq a b = true → keyEq b b = true.
Proof. intros H. apply (keyEq_trans b a b); [by apply keyEq_sym|done]. Qed.

(** Reading a map after an assignment. *)
Lemma mapIndex_mapAssign (m : GoMap) (k v q : Val) :
  mapIndex (mapAssign m k v) q =
    if keyEq k q then Some v else mapIndex m q.
Proof.
  induction m as [|[k0 v0] m IH]; simpl; [done|].
  destruct (keyEq k0 k) eqn:E0; simpl.
  - destruct (keyEq k q) eqn:E1; [done|].
    destruct (keyEq k0 q) eqn:E2; [|done].
    rewrite (keyEq_trans k k0 q) in E1; [done|by apply keyEq_sym|done].
  - rewrite IH. destruct (keyEq k0 q) eqn:E2; [|done].
    destruct (keyEq k q) eqn:E1; [|done].
    rewrite (keyEq_trans k0 q k) in E0; [done|done|by apply keyEq_sym].
Qed.

Lemma assignAll_app (m : GoMap) (ps qs : list (Val * Val)) :
  assignAll m (ps ++ qs) = assignAll (assignAll m ps) qs.
Proof. unfold assignAll. apply foldl_app. Qed.

Lemma mapIndex_assignAll_other (m : GoMap) (ps : list (Val * Val)) (q : Val) :
  (∀ k v, (k, v) ∈ ps → keyEq k q = false) →
  mapIndex (assignAll m ps) q = mapIndex m q.
Proof.
  revert m. induction ps as [|[k v] ps IH]; intros m Hps; [done|].
  change (assignAll m ((k, v) :: ps)) with (assignAll (mapAssign m k v) ps).
  rewrite IH by (intros k' v' Hin; apply (Hps k' v'); by right).
  rewrite mapIndex_mapAssign. by rewrite (Hps k v) by left.
Qed.

(** Last write wins: after a run of assignments, a key reads the value of
    the last assignment whose key equals it. *)
Lemma mapIndex_assignAll_last (m : GoMap) (ps qs : list (Val * Val)) (k v q : Val) :
  keyEq k q = true →
  (∀ k' v', (k', v') ∈ qs → keyEq k' q = false) →
  mapIndex (assignAll m (ps ++ (k, v) :: qs)) q = Some v.
Proof.
  intros Hk Hqs. rewrite assignAll_app.
  change (assignAll ?m0 ((k, v) :: qs)) with (assignAll (mapAssign m0 k v) qs).
  rewrite mapIndex_assignAll_other by done.
  by rewrite mapIndex_mapAssign, Hk.
Qed.

(** ** The collection decoders *)

Section CollectionFacts.

Variable Unquote : string → option string.
Variable ParseFloat : string → Z → option float.



Lemma sliceLoop_total (V : LitType) (elts : list Expr) (acc : list Val) :
  (∀ b, BasicLitE b ∈ elts → parseBasicLit Unquote ParseFloat V b ≠ Panic) →
  sliceLoop Unquote ParseFloat V elts acc ≠ Panic.
Proof.
  revert acc. induction elts as [|a elts IH]; intros acc Hnp; simpl; [done|].
  assert (∀ b, BasicLitE b ∈ elts → parseBasicLit Unquote ParseFloat V b ≠ Panic) as Hnp'
    by (intros b Hb; apply Hnp; by right).
  destruct a as [|l| | | | |]; try (by apply IH).
  pose proof (Hnp l ltac:(left)) as Hl.
  destruct (parseBasicLit Unquote ParseFloat V l) as [|[v|]]; simpl;
    [done|by apply IH|done].
Qed.


(** An element that is not a pair of basic literals is passed over by the
    mapping loop. *)
Lemma mapLoop_skip_shape (K V : LitType) (pre post : list Expr) (e : Expr) (acc : GoMap) :
  isLitPair e = false →
  mapLoop Unquote ParseFloat K V (pre ++ e :: post) acc
  = mapLoop Unquote ParseFloat K V (pre ++ post) acc.
Proof.
  intros He. revert acc. induction pre as [|a pre IH]; intros acc; simpl.
  - destruct e as [| | |[] []| | |]; done.
  - destruct a as [| | |[| b1 | | | | |] [| b2 | | | | |]| | |]; try apply IH.
    destruct (parseBasicLit _ _ K b1) as [|[k|]]; simpl; [done|..];
      (destruct (parseBasicLit _ _ V b2) as [|[v|]]; simpl; [done|..]); apply IH.
Qed.


End CollectionFacts.

Section MappingOrder.

Variable Unquote : string → option string.
Variable ParseFloat : string → Z → option float.

Lemma decodedPairs_app (K V : LitType) (l1 l2 : list Expr) :
  decodedPairs Unquote ParseFloat K V (l1 ++ l2)
  = decodedPairs Unquote ParseFloat K V l1 ++ decodedPairs Unquote ParseFloat K V l2.
Proof.
  induction l1 as [|a l1 IH]; simpl; [done|].
  destruct a as [| | |[| b1 | | | | |] [| b2 | | | | |]| | |]; try apply IH.
  destruct (parseBasicLit _ _ K b1) as [|[k|]]; try apply IH.
  destruct (parseBasicLit _ _ V b2) as [|[v|]]; try apply IH.
  simpl. by rewrite IH.
Qed.

Lemma decodedPairs_elem (K V : LitType) (elts : list Expr) (k v : Val) :
  (k, v) ∈ decodedPairs Unquote ParseFloat K V elts →
  ∃ bKey bVal,
    kv bKey bVal ∈ elts
    ∧ parseBasicLit Unquote ParseFloat K bKey = Ok (Some k)
    ∧ parseBasicLit Unquote ParseFloat V bVal = Ok (Some v).
Proof.
  induction elts as [|a elts IH]; simpl.
  - intros H. by apply elem_of_nil in H.
  - assert ((k, v) ∈ decodedPairs Unquote ParseFloat K V elts →
            ∃ bKey bVal, kv bKey bVal ∈ a :: elts
              ∧ parseBasicLit Unquote ParseFloat K bKey = Ok (Some k)
              ∧ parseBasicLit Unquote ParseFloat V bVal = Ok (Some v)) as IH'.
    { intros (bk & bv & Hin & Hk & Hv)%IH. exists bk, bv. split; [by right|done]. }
    destruct a as [| | |[| b1 | | | | |] [| b2 | | | | |]| | |]; try apply IH'.
    destruct (parseBasicLit _ _ K b1) as [|[k1|]] eqn:E1; try apply IH'.
    destruct (parseBasicLit _ _ V b2) as [|[v1|]] eqn:E2; try apply IH'.
    intros [[= -> ->]|Hin]%elem_of_cons; [|by apply IH'].
    exists b1, b2. split; [left|done].
Qed.

(** Source order is assignment order: at wide key and value types the
    mapping loop performs exactly the assignments of the decoded pairs, one
    after the other. *)
Lemma mapLoop_pairs (K V : LitType) (elts : list Expr) (acc : GoMap) :
  wide K = true → wide V = true →
  mapLoop Unquote ParseFloat K V elts acc
  = Ok (assignAll acc (decodedPairs Unquote ParseFloat K V elts)).
Proof.
  intros HK HV. revert acc. induction elts as [|a elts IH]; intros acc; simpl; [done|].
  destruct a as [| | |[| b1 | | | | |] [| b2 | | | | |]| | |]; try apply IH.
  pose proof (parseBasicLit_wide Unquote ParseFloat K b1 HK) as H1.
  pose proof (parseBasicLit_wide Unquote ParseFloat V b2 HV) as H2.
  destruct (parseBasicLit _ _ K b1) as [|[k|]]; [done|..];
    (destruct (parseBasicLit _ _ V b2) as [|[v|]]; [done|..]); simpl; apply IH.
Qed.

(** C8: when two key-value elements of one composite literal decode to
    equal keys and no element after the second decodes to that key, the
    mapping decode step emits a record whose map is the result of assigning
    the decoded pairs in source order, and in that map the key (in either
    spelling) reads the value of the second element: the last write wins. *)
Theorem C8_last_write_wins
    (K V : LitType) (doc name : string) (pre mid post : list Expr)
    (bKey1 bVal1 bKey2 bVal2 : BasicLit) (k1 v1 k2 v2 : Val) :
  parseBasicLit Unquote ParseFloat K bKey1 = Ok (Some k1) →
  parseBasicLit Unquote ParseFloat V bVal1 = Ok (Some v1) →
  parseBasicLit Unquote ParseFloat K bKey2 = Ok (Some k2) →
  parseBasicLit Unquote ParseFloat V bVal2 = Ok (Some v2) →
  keyEq k1 k2 = true →
  (∀ bKey bVal k v,
     kv bKey bVal ∈ post →
     parseBasicLit Unquote ParseFloat K bKey = Ok (Some k) →
     parseBasicLit Unquote ParseFloat V bVal = Ok (Some v) →
     keyEq k k2 = false) →
  ∃ m,
    mapFn Unquote ParseFloat K V doc name
      (CompositeLit (pre ++ kv bKey1 bVal1 :: mid ++ kv bKey2 bVal2 :: post))
    = Ok (Some {| mvDoc := doc; mvName := name; mvValue := m |})
    ∧ m = assignAll [] (decodedPairs Unquote ParseFloat K V
                          (pre ++ kv bKey1 bVal1 :: mid ++ kv bKey2 bVal2 :: post))
    ∧ mapIndex m k2 = Some v2
    ∧ mapIndex m k1 = Some v2.
Proof.
  intros Hk1 Hv1 Hk2 Hv2 Heq Hpost.
  destruct (parseBasicLit_Some _ _ _ _ _ Hk2) as [HK _].
  destruct (parseBasicLit_Some _ _ _ _ _ Hv2) as [HV _].
  set (elts := pre ++ kv bKey1 bVal1 :: mid ++ kv bKey2 bVal2 :: post).
  set (m := assignAll [] (decodedPairs Unquote ParseFloat K V elts)).
  assert (∀ q, keyEq k2 q = true → mapIndex m q = Some v2) as Hread.
  { intros q Hq. unfold m, elts.
    replace (pre ++ kv bKey1 bVal1 :: mid ++ kv bKey2 bVal2 :: post)
      with ((pre ++ kv bKey1 bVal1 :: mid) ++ [kv bKey2 bVal2] ++ post)
      by (by rewrite <- !app_assoc).
    rewrite !decodedPairs_app. simpl. rewrite Hk2, Hv2.
    apply mapIndex_assignAll_last; [done|].
    intros k' v' (bk & bv & Hin & Hk & Hv)%decodedPairs_elem.
    destruct (keyEq k' q) eqn:E; [|done].
    pose proof (Hpost bk bv k' v' Hin Hk Hv) as Hf.
    rewrite (keyEq_trans k' q k2) in Hf; [done|done|by apply keyEq_sym]. }
  exists m. split_and!.
  - simpl. fold elts. rewrite mapLoop_pairs by done. fold m. simpl.
    pose proof (Hread k2 (keyEq_refl_r _ _ Heq)) as Hm.
    destruct m; [done|]. rewrite bool_decide_eq_true_2; [done|simpl; lia].
  - done.
  - apply Hread. by apply (keyEq_refl_r k1).
  - apply Hread. by apply keyEq_sym.
Qed.

End MappingOrder.

(** ** The function filter *)

Lemma forRange_collect {A B : Type} (body : A → list B → res (list B))
    (f : A → list B) (l : list A) (acc : list B) :
  (∀ x r, x ∈ l → body x r = Ok (r ++ f x)) →
  forRange body l acc = Ok (acc ++ concat (map f l)).
Proof.
  revert acc. induction l as [|x l IH]; intros acc Hb; simpl.
  - by rewrite app_nil_r.
  - rewrite Hb by left. simpl. rewrite IH by (intros y r Hy; apply Hb; by right).
    by rewrite app_assoc.
Qed.

Section FuncNamesFacts.

Variable Quote : string → string.

Lemma paramsCheck_nil (t : option FuncType) : paramsCheck Quote [] t = true.
Proof.
  unfold paramsCheck. case_match; [done|].
  by rewrite bool_decide_eq_false_2 by (simpl; lia).
Qed.

(** On receivers that the filter tests, the receiver requirement is the one
    of the specification: with a non-empty name, a receiver whose type name
    through one pointer is that name; with the empty name, no receiver (or,
    in a tree no parser builds, a receiver whose type name is empty). *)
Lemma GetFuncNames_tested_receivers (g : File) (recType : string) :
  Forall (λ d, recvTested d = true) (Decls g) →
  GetFuncNames Quote g recType [] = Ok (concat (map (funcNamesBy recType) (Decls g))).
Proof.
  intros Hg. unfold GetFuncNames.
  rewrite (forRange_collect _ (funcNamesBy recType)); [done|].
  intros d r Hd. rewrite Forall_forall in Hg. specialize (Hg d Hd).
  destruct d as [|decl|]; simpl; [by rewrite app_nil_r| |by rewrite app_nil_r].
  rewrite paramsCheck_nil. unfold recvQualifies, recvTypeName. simpl in Hg.
  destruct (Recv decl) as [[|[ty] l]|]; simpl in *; [done| |].
  - destruct ty as [name| | | |X| |]; simpl in *; try done.
    + repeat case_bool_decide; simplify_eq; simpl; by rewrite ?app_nil_r.
    + destruct X as [name| | | | | |]; simpl;
        repeat case_bool_decide; simplify_eq; simpl; by rewrite ?app_nil_r.
  - repeat case_bool_decide; simplify_eq; simpl; by rewrite ?app_nil_r.
Qed.

(** C4, evaluated: a method whose receiver type is neither an identifier
    nor a pointer (the generic [Stack[T]]) passes the receiver test whatever
    the requested name: it is returned for the receiver name [LocalStruct]
    and, although it has a receiver, for the empty receiver name; the method
    on [*Stack[T]] next to it is left out in both queries. *)
Theorem C4_untested_receiver_shape_qualifies :
  GetFuncNames Quote stackFile "LocalStruct" [] = Ok ["Push"]
  ∧ GetFuncNames Quote stackFile "" [] = Ok ["Push"].
Proof. split; vm_compute; reflexivity. Qed.

End FuncNamesFacts.

(** * The statements at concrete trees *)

Lemma parser_tag : matchedTag (mkDocMap ["parser"]) ["// parser"] "parser".
Proof.
  exists [], "// parser", []. split_and!; [done| |done|].
  - intros d Hd. by apply elem_of_nil in Hd.
  - unfold mkDocMap. set_solver.
Qed.





Lemma C7_witness :
  parseBasicLit noUnquote noParseFloat (TInt Int64) {| Kind := STRING; Value := "`3`" |}
  = Ok None
  ∧ basicFn noUnquote noParseFloat (TInt Int64) "parser" "stringValue"
      (BasicLitE {| Kind := STRING; Value := "`3`" |})
    = Ok None.
Proof.
  apply C7_category_mismatch_is_no_match. simpl. discriminate.
Defined.

Lemma C8_witness :
  ∃ m,
    mapFn noUnquote noParseFloat (TInt Int64) (TInt Int64) "parser" "m"
      (CompositeLit ([] ++ kv (intBasic "1") (intBasic "2")
                        :: [kv (intBasic "3") (intBasic "4")]
                        ++ kv (intBasic "1") (intBasic "5") :: []))
    = Ok (Some {| mvDoc := "parser"; mvName := "m"; mvValue := m |})
    ∧ m = assignAll [] (decodedPairs noUnquote noParseFloat (TInt Int64) (TInt Int64)
                          ([] ++ kv (intBasic "1") (intBasic "2")
                              :: [kv (intBasic "3") (intBasic "4")]
                              ++ kv (intBasic "1") (intBasic "5") :: []))
    ∧ mapIndex m (VInt Int64 1) = Some (VInt Int64 5)
    ∧ mapIndex m (VInt Int64 1) = Some (VInt Int64 5).
Proof.
  apply (C8_last_write_wins noUnquote noParseFloat (TInt Int64) (TInt Int64)
           "parser" "m" [] [kv (intBasic "3") (intBasic "4")] []
           (intBasic "1") (intBasic "2") (intBasic "1") (intBasic "5")
           (VInt Int64 1) (VInt Int64 2) (VInt Int64 1) (VInt Int64 5)).
  - vm_compute. reflexivity.
  - vm_compute. reflexivity.
  - vm_compute. reflexivity.
  - vm_compute. reflexivity.
  - reflexivity.
  - intros bKey bVal k v Hin. by apply elem_of_nil in Hin.
Defined.

Lemma C9_witness :
  getBasicValues noUnquote noParseFloat (TInt Int64) (varGroup [noInitSpec])
    (mkDocMap ["parser"]) = Panic
  ∧ getSliceValues noUnquote noParseFloat TString (varGroup [noInitSpec])
      (mkDocMap ["parser"]) = Panic
  ∧ getMapValues noUnquote noParseFloat TString (TFloat Float64) (varGroup [noInitSpec])
      (mkDocMap ["parser"]) = Panic.
Proof.
  destruct (C9_tagged_declaration_without_initializer_panics
              noUnquote noParseFloat (mkDocMap ["parser"]) (varGroup [noInitSpec])
              [ValueSpecS noInitSpec] noInitSpec
              {| Name := "x";
                 Obj := Some (DeclValueSpec {| Doc := Some ["// parser"]; Values := [] |}) |}
              {| Doc := Some ["// parser"]; Values := [] |}
              ["// parser"] "parser")
    as (_ & Hbasic & Hslice & Hmap).
  - left.
  - left.
  - left.
  - reflexivity.
  - reflexivity.
  - exact parser_tag.
  - discriminate.
  - reflexivity.
  - split_and!; [apply Hbasic|apply Hslice|apply Hmap].
Defined.

(** ** The queries of [example/example.go] on [example/example_code.go]

    The results are the ones printed in the comments of the example, given
    what [strconv] returns on the literals of the file. *)

Section Example.

Variable Unquote : string → option string.
Variable ParseFloat : string → Z → option float.
Variable Quote : string → string.
Variables f3_14 f0_42 f42 : float.

Hypothesis Unquote_3 : Unquote (quoted "3") = Some "3".
Hypothesis Unquote_a : Unquote (quoted "a") = Some "a".
Hypothesis Unquote_b : Unquote (quoted "b") = Some "b".
Hypothesis Unquote_c : Unquote (quoted "c") = Some "c".
Hypothesis Unquote_1 : Unquote (quoted "1") = Some "1".
Hypothesis Unquote_2 : Unquote (quoted "2") = Some "2".
Hypothesis ParseFloat_3_14 : ParseFloat "3.14" 64 = Some f3_14.
Hypothesis ParseFloat_0_42 : ParseFloat "0.42" 64 = Some f0_42.
Hypothesis ParseFloat_42_0 : ParseFloat "42.0" 64 = Some f42.

Ltac run :=
  repeat (vm_compute;
          first [ rewrite Unquote_3 | rewrite Unquote_a | rewrite Unquote_b
                | rewrite Unquote_c | rewrite Unquote_1 | rewrite Unquote_2
                | rewrite ParseFloat_3_14 | rewrite ParseFloat_0_42
                | rewrite ParseFloat_42_0 ]);
  vm_compute; reflexivity.

Example boolValues :
  GetBasicValues Unquote ParseFloat TBool exampleFile ["parser"]
  = Ok [ {| lvDoc := "parser"; lvName := "boolValue"; lvValue := VBool true |} ].
Proof. vm_compute. reflexivity. Qed.

Example stringValues :
  GetBasicValues Unquote ParseFloat TString exampleFile ["parser"; "parser:str"]
  = Ok [ {| lvDoc := "parser:str"; lvName := "stringValue"; lvValue := VString "3" |} ].
Proof. vm_compute in Unquote_3. run. Qed.

Example floatValues :
  GetBasicValues Unquote ParseFloat (TFloat Float64) exampleFile ["parser"]
  = Ok [ {| lvDoc := "parser"; lvName := "float64Value";
            lvValue := VFloat Float64 f3_14 |} ].
Proof. run. Qed.

Example floatSliceValues :
  GetSliceValues Unquote ParseFloat (TFloat Float64) exampleFile ["parser"]
  = Ok [ {| svDoc := "parser"; svName := "float64SliceValue";
            svValue := [VFloat Float64 f3_14; VFloat Float64 f0_42] |} ].
Proof. run. Qed.

Example stringSliceValues :
  GetSliceValues Unquote ParseFloat TString exampleFile ["parser"; "parser:str"]
  = Ok [ {| svDoc := "parser:str"; svName := "stringSliceValue";
            svValue := [VString "a"; VString "b"; VString "c"] |} ].
Proof. vm_compute in Unquote_a, Unquote_b, Unquote_c. run. Qed.

Example stringMapValues :
  GetMapValues Unquote ParseFloat TString TString exampleFile ["parser"; "parser:str"]
  = Ok [ {| mvDoc := "parser:str"; mvName := "stringToStringMapValue";
            mvValue := [(VString "a", VString "1"); (VString "b", VString "2")] |} ].
Proof. vm_compute in Unquote_a, Unquote_b, Unquote_1, Unquote_2. run. Qed.

Example floatMapValues :
  GetMapValues Unquote ParseFloat (TInt Int64) (TFloat Float64) exampleFile ["parser"]
  = Ok [ {| mvDoc := "parser"; mvName := "intToFloat64MapValue";
            mvValue := [(VInt Int64 3, VFloat Float64 f3_14);
                        (VInt Int64 17, VFloat Float64 f42)] |} ].
Proof. run. Qed.

Example methodsOfLocalStruct :
  GetFuncNames Quote exampleFile "LocalStruct" ["Context"; "string"]
  = Ok ["usefulFunc1"; "usefulFunc2"; "usefulFunc3"]
  ∧ GetFuncNames Quote exampleFile "LocalStruct" ["Context"]
    = Ok ["usefulFunc1"; "usefulFunc2"; "usefulFunc3"]
  ∧ GetFuncNames Quote exampleFile "" ["Context"] = Ok ["usefulFunc4"].
Proof. split_and!; vm_compute; reflexivity. Qed.

(** At a narrow integer type the same file makes the scalar query panic,
    on [intValue = 3]. *)
Example narrowValues :
  GetBasicValues Unquote ParseFloat (TInt Int8) exampleFile ["parser"] = Panic.
Proof. vm_compute. reflexivity. Qed.

End Example.


(** * Further properties *)

(** ** The walk as a scan of the tagged names *)

Lemma forRange_bind {A B S : Type} (body : B → S → res S) (g : A → list B)
    (l : list A) (s : S) :
  forRange (λ x s0, forRange body (g x) s0) l s = forRange body (l ≫= g) s.
Proof.
  revert s. induction l as [|x l IH]; intros s; simpl; [done|].
  rewrite forRange_app. destruct (forRange body (g x) s); simpl; [done|apply IH].
Qed.

Lemma forRange_ext {A S : Type} (body1 body2 : A → S → res S) (l : list A) (s : S) :
  (∀ x s0, x ∈ l → body1 x s0 = body2 x s0) →
  forRange body1 l s = forRange body2 l s.
Proof.
  revert s. induction l as [|x l IH]; intros s Hb; simpl; [done|].
  rewrite Hb by left. destruct (body2 x s); simpl; [done|].
  apply IH. intros y s0 Hy. apply Hb. by right.
Qed.

Lemma forRange_omap {A B S : Type} (body : B → S → res S) (g : A → option B)
    (l : list A) (s : S) :
  forRange (λ x s0, match g x with Some y => body y s0 | None => Ok s0 end) l s
  = forRange body (omap g l) s.
Proof.
  revert s. induction l as [|x l IH]; intros s; simpl; [done|].
  destruct (g x) as [y|]; simpl; [|apply IH].
  destruct (body y s); simpl; [done|apply IH].
Qed.

Section WalkScan.

Context {T : Type}.
Variable docMap : gset string.
Variable fn : string → string → Expr → res (option T).

Lemma visitName_target (n : NameIdent) (result : list T) :
  visitName docMap fn n result =
    match target docMap n with
    | Some tg => visitTarget fn tg result
    | None => Ok result
    end.
Proof.
  unfold target. destruct (Obj n) as [[vSpec|]|] eqn:HObj; [|by unfold visitName; rewrite HObj..].
  destruct (Doc vSpec) as [docs|] eqn:HDoc; [|by unfold visitName; rewrite HObj, HDoc].
  rewrite (visitName_found docMap fn n vSpec docs) by done.
  case_bool_decide; [done|]. unfold visitTarget. simpl.
  by destruct (Values vSpec !! 0%nat).
Qed.

(** The three nested loops of the walk are one scan of the targets. *)
Lemma walkDecls_targets (f : File) :
  walkDecls docMap fn f = forRange (visitTarget fn) (targets docMap f) [].
Proof.
  unfold walkDecls, targets, fileNames.
  rewrite <- forRange_omap, <- forRange_bind.
  apply forRange_ext. intros d r _. destruct d as [specs| |]; simpl; [|done..].
  unfold declNames. rewrite <- forRange_bind.
  apply forRange_ext. intros sp r' _. destruct sp as [s|]; simpl; [|done].
  apply forRange_ext. intros n r'' _. apply visitName_target.
Qed.

Lemma visitTarget_acc1 (tg : Target) (acc : list T) :
  visitTarget fn tg acc = (rs ← visitTarget fn tg []; Ok (acc ++ rs)).
Proof.
  unfold visitTarget. destruct (tInit tg) as [val|]; simpl; [|done].
  by destruct (fn _ _ _).
Qed.

Lemma visitTarget_acc (l : list Target) (acc : list T) :
  forRange (visitTarget fn) l acc
  = (rs ← forRange (visitTarget fn) l []; Ok (acc ++ rs)).
Proof.
  revert acc. induction l as [|tg l IH]; intros acc; simpl.
  - by rewrite app_nil_r.
  - rewrite (visitTarget_acc1 tg acc).
    destruct (visitTarget fn tg []) as [|r0]; simpl; [done|].
    rewrite (IH (acc ++ r0)), (IH r0).
    destruct (forRange _ l []); simpl; [done|]. by rewrite app_assoc.
Qed.

End WalkScan.

Lemma elem_of_fileNames (f : File) (n : NameIdent) :
  n ∈ fileNames f ↔
  ∃ specs s, GenDeclD specs ∈ Decls f ∧ ValueSpecS s ∈ specs ∧ n ∈ Names s.
Proof.
  unfold fileNames. rewrite list_elem_of_bind. split.
  - intros (d & Hn & Hd). destruct d as [specs| |]; simpl in Hn;
      [|by apply elem_of_nil in Hn..].
    apply list_elem_of_bind in Hn as (sp & Hn & Hsp).
    destruct sp as [s|]; simpl in Hn; [|by apply elem_of_nil in Hn]. eauto.
  - intros (specs & s & Hd & Hs & Hn). exists (GenDeclD specs). split; [|done].
    simpl. apply list_elem_of_bind. by exists (ValueSpecS s).
Qed.

Lemma elem_of_targets (docMap : gset string) (f : File) (tg : Target) :
  tg ∈ targets docMap f ↔
  ∃ n vSpec docs,
    taggedName docMap f n vSpec docs
    ∧ tg = {| tTag := findDoc docMap docs; tName := Name n;
              tInit := Values vSpec !! 0%nat |}.
Proof.
  unfold targets, taggedName. rewrite list_elem_of_omap.
  setoid_rewrite elem_of_fileNames. unfold target. split.
  - intros (n & Hn & Ht).
    destruct (Obj n) as [[vSpec|]|] eqn:HObj; [|done..].
    destruct (Doc vSpec) as [docs|] eqn:HDoc; [|done].
    case_bool_decide; [done|]. injection Ht as <-. by exists n, vSpec, docs.
  - intros (n & vSpec & docs & (Hn & HObj & HDoc & Hf) & ->).
    exists n. split; [done|]. rewrite HObj, HDoc.
    by rewrite bool_decide_eq_false_2.
Qed.

Section ScanFacts.

Context {T : Type}.
Variable fn : string → string → Expr → res (option T).

Lemma scan_result (l : list Target) (acc : list T) :
  (∀ tg, tg ∈ l →
     ∃ val, tInit tg = Some val ∧ fn (tTag tg) (tName tg) val ≠ Panic) →
  forRange (visitTarget fn) l acc = Ok (acc ++ l ≫= outcome fn).
Proof.
  revert acc. induction l as [|tg l IH]; intros acc Hl; simpl.
  - by rewrite app_nil_r.
  - destruct (Hl tg ltac:(left)) as (val & Hval & Hfn).
    assert (visitTarget fn tg acc = Ok (acc ++ outcome fn tg)) as ->.
    { unfold visitTarget, outcome. rewrite Hval.
      by destruct (fn _ _ val) as [|[r|]]. }
    cbn [mbind res_bind]. rewrite IH by (intros tg' Htg'; apply Hl; by right).
    by rewrite <- app_assoc.
Qed.

Lemma scan_sound (l : list Target) (acc res : list T) (r : T) :
  forRange (visitTarget fn) l acc = Ok res → r ∈ res →
  r ∈ acc
  ∨ ∃ tg val, tg ∈ l ∧ tInit tg = Some val
              ∧ fn (tTag tg) (tName tg) val = Ok (Some r).
Proof.
  revert acc. induction l as [|tg l IH]; intros acc; simpl.
  - intros [= <-]. by left.
  - destruct (visitTarget fn tg acc) as [|acc'] eqn:Hvisit; [done|].
    unfold visitTarget in Hvisit.
    destruct (tInit tg) as [val|] eqn:Hval; [|done].
    destruct (fn _ _ val) as [|o] eqn:Hfn; [done|]. injection Hvisit as <-.
    cbn [mbind res_bind].
    intros Hrest Hr. destruct (IH _ Hrest Hr) as [Hin|(tg' & val' & Hin & Hv & Hf)].
    + apply elem_of_app in Hin as [Hin|Hin]; [by left|].
      destruct o as [r0|]; simpl in Hin; [|by apply elem_of_nil in Hin].
      apply list_elem_of_singleton in Hin as ->.
      right. exists tg, val. split_and!; [left|done|done].
    + right. exists tg', val'. split_and!; [by right|done|done].
Qed.

Lemma scan_panic (l : list Target) (acc : list T) :
  (∀ doc name val, fn doc name val ≠ Panic) →
  forRange (visitTarget fn) l acc = Panic ↔ ∃ tg, tg ∈ l ∧ tInit tg = None.
Proof.
  intros Hfn. revert acc. induction l as [|tg l IH]; intros acc; simpl.
  - split; [done|]. intros (tg & Hin & _). by apply elem_of_nil in Hin.
  - destruct (visitTarget fn tg acc) as [|acc'] eqn:Hvisit;
      unfold visitTarget in Hvisit;
      destruct (tInit tg) as [val|] eqn:Hval; cbn [mbind res_bind].
    + by destruct (Hfn (tTag tg) (tName tg) val); destruct (fn _ _ val).
    + split; [|done]. intros _. exists tg. split; [left|done].
    + rewrite IH. split.
      * intros (tg' & Hin & Hnone). exists tg'. split; [by right|done].
      * intros (tg' & [->|Hin]%elem_of_cons & Hnone); [congruence|eauto].
    + done.
Qed.

End ScanFacts.

Section WalkTheorems.

Context {T : Type}.
Variable docMap : gset string.
Variable fn : string → string → Expr → res (option T).

(** X1: when every tagged name of the file has an initializer on which the
    decode step does not panic, the walk returns, in source order, exactly
    the records that the decode step yields on the tagged names: no record
    is lost, added or reordered. *)
Theorem X1_walk_returns_the_records_of_the_tagged_names (f : File) :
  (∀ tg, tg ∈ targets docMap f →
     ∃ val, tInit tg = Some val ∧ fn (tTag tg) (tName tg) val ≠ Panic) →
  walkDecls docMap fn f = Ok (targets docMap f ≫= outcome fn).
Proof.
  intros Hl. rewrite walkDecls_targets. by rewrite scan_result.
Qed.

(** X2: the walk of a file whose declarations are two lists one after the
    other is the walk of the first followed by the walk of the second: the
    records of the first come first, and a panic in the first pre-empts the
    second. *)
Theorem X2_walk_of_appended_declarations (decls1 decls2 : list Decl) :
  walkDecls docMap fn {| Decls := decls1 ++ decls2 |}
  = (r1 ← walkDecls docMap fn {| Decls := decls1 |};
     r2 ← walkDecls docMap fn {| Decls := decls2 |};
     Ok (r1 ++ r2)).
Proof.
  rewrite !walkDecls_targets. unfold targets, fileNames. simpl.
  rewrite bind_app, omap_app, forRange_app.
  destruct (forRange _ (omap _ (decls1 ≫= declNames)) []) as [|r1]; simpl; [done|].
  apply visitTarget_acc.
Qed.

(** X3: every record that the walk returns is the result of the decode step
    on a tagged name of the file: on the matched tag of its doc comment,
    which is a non-empty member of the tag set, on its name, and on the
    first initializer of its spec.  No record comes from an untagged
    declaration. *)
Theorem X3_walk_records_come_from_tagged_names
    (f : File) (result : list T) (r : T) :
  walkDecls docMap fn f = Ok result → r ∈ result →
  ∃ n vSpec docs val,
    taggedName docMap f n vSpec docs
    ∧ matchedTag docMap docs (findDoc docMap docs)
    ∧ Values vSpec !! 0%nat = Some val
    ∧ fn (findDoc docMap docs) (Name n) val = Ok (Some r).
Proof.
  rewrite walkDecls_targets. intros Hwalk Hr.
  destruct (scan_sound fn _ _ _ _ Hwalk Hr) as [Hin|(tg & val & Htg & Hval & Hfn)].
  { by apply elem_of_nil in Hin. }
  apply elem_of_targets in Htg as (n & vSpec & docs & Htagged & ->).
  simpl in *. exists n, vSpec, docs, val. split_and!; try done.
  destruct Htagged as (_ & _ & _ & Hne).
  destruct (findDoc_cases docMap docs) as [Hno|Hm]; [|done].
  by rewrite (findDoc_noTag docMap docs Hno) in Hne.
Qed.

(** Under a decode step that never panics, the walk panics exactly when
    some tagged name of the file has no initializer. *)
Lemma walkDecls_panic_iff (f : File) :
  (∀ doc name val, fn doc name val ≠ Panic) →
  walkDecls docMap fn f = Panic ↔
  ∃ n vSpec docs, taggedName docMap f n vSpec docs ∧ Values vSpec = [].
Proof.
  intros Hfn. rewrite walkDecls_targets, scan_panic by done. split.
  - intros (tg & (n & vSpec & docs & Htagged & ->)%elem_of_targets & Hnone).
    simpl in Hnone. exists n, vSpec, docs. split; [done|].
    by destruct (Values vSpec).
  - intros (n & vSpec & docs & Htagged & Hvals).
    exists {| tTag := findDoc docMap docs; tName := Name n;
              tInit := Values vSpec !! 0%nat |}.
    split; [apply elem_of_targets; eauto|]. simpl. by rewrite Hvals.
Qed.

End WalkTheorems.

(** ** The decoder, in general *)

Section DecoderTheorems.

Variable Unquote : string → option string.
Variable ParseFloat : string → Z → option float.

(** X5: the literal decoder yields a value only at a wide requested type,
    on a literal of the category of that type, and the value then has the
    requested dynamic type; it panics only at a narrow requested type, and
    only on a literal of the category of that type. *)
Theorem X5_decoder_values_and_panics (V : LitType) (val : BasicLit) :
  (∀ v, parseBasicLit Unquote ParseFloat V val = Ok (Some v) →
        typeOf v = V ∧ wide V = true ∧ litCategory V = Some (Kind val))
  ∧ (parseBasicLit Unquote ParseFloat V val = Panic →
     wide V = false ∧ litCategory V = Some (Kind val)).
Proof.
  assert (litCategory V ≠ Some (Kind val) →
          parseBasicLit Unquote ParseFloat V val = Ok None) as Hcat.
  { intros Hne. destruct V as [|i|f|]; simpl in *.
    - rewrite bool_decide_eq_true_2; [done|congruence].
    - unfold parseIntLit. rewrite bool_decide_eq_true_2; [done|congruence].
    - unfold parseFloatLit. rewrite bool_decide_eq_true_2; [done|congruence].
    - done. }
  split.
  - intros v Hv. destruct (parseBasicLit_Some _ _ _ _ _ Hv) as [Hw Ht].
    split_and!; try done.
    destruct (decide (litCategory V = Some (Kind val))) as [|Hne]; [done|].
    rewrite (Hcat Hne) in Hv. done.
  - intros Hp. split.
    + destruct (wide V) eqn:Hw; [|done].
      by destruct (parseBasicLit_wide Unquote ParseFloat V val Hw).
    + destruct (decide (litCategory V = Some (Kind val))) as [|Hne]; [done|].
      rewrite (Hcat Hne) in Hp. done.
Qed.

(** X6: on a FLOAT literal a [float64] request returns what [ParseFloat]
    returns at bit size 64 and is a no-match when it fails; a [float32]
    request parses at bit size 32, is a no-match when that fails, and panics
    on every text that [ParseFloat] accepts, since the [float64] it returns
    is asserted at [float32].  On a STRING literal a [string] request
    returns what [Unquote] returns, and is a no-match when it fails. *)
Theorem X6_float_and_string_requests (text : string) (F : FloatType) :
  parseBasicLit Unquote ParseFloat (TFloat F) {| Kind := FLOAT; Value := text |}
  = match ParseFloat text (floatBits F) with
    | None => Ok None
    | Some x =>
        match F with
        | Float64 => Ok (Some (VFloat Float64 x))
        | Float32 => Panic
        end
    end
  ∧ parseBasicLit Unquote ParseFloat TString {| Kind := STRING; Value := text |}
    = match Unquote text with
      | None => Ok None
      | Some s => Ok (Some (VString s))
      end.
Proof.
  split.
  - simpl. unfold parseFloatLit, parseFloat. simpl.
    destruct F; simpl; by destruct (ParseFloat text _).
  - simpl. by destruct (Unquote text).
Qed.

End DecoderTheorems.

(** ** Decimal texts, written and read back *)

Lemma append_cons (x : ascii) (a b : string) :
  String.append (String x a) b = String x (String.append a b).
Proof. reflexivity. Qed.

Lemma append_assoc (a b c : string) :
  String.append (String.append a b) c = String.append a (String.append b c).
Proof.
  induction a as [|x a IH]; [done|]. rewrite !append_cons. by rewrite IH.
Qed.

Lemma append_nil_r (a : string) : String.append a EmptyString = a.
Proof. induction a as [|x a IH]; [done|]. rewrite append_cons. by rewrite IH. Qed.

Lemma allDec_app (a b : string) :
  allDec (String.append a b) = allDec a && allDec b.
Proof.
  induction a as [|x a IH]; [done|]. rewrite append_cons. simpl.
  rewrite IH. by rewrite andb_assoc.
Qed.

Lemma decValue_app (a b : string) (n : Z) :
  decValue (String.append a b) n = decValue b (decValue a n).
Proof.
  revert n. induction a as [|x a IH]; intros n; [done|].
  rewrite append_cons. simpl. apply IH.
Qed.

Lemma pretty_N_char_dec (d : N) :
  (d < 10)%N →
  isDec (pretty_N_char d) = true
  ∧ strconv.byteOf (pretty_N_char d) - 48 = Z.of_N d.
Proof.
  intros Hd.
  assert (d = 0 ∨ d = 1 ∨ d = 2 ∨ d = 3 ∨ d = 4 ∨ d = 5 ∨ d = 6 ∨ d = 7
          ∨ d = 8 ∨ d = 9)%N as Hcases by lia.
  repeat (destruct Hcases as [->|Hcases]; [by split|]). subst d. by split.
Qed.

(** The digits that [pretty] writes for a natural number spell it. *)
Lemma pretty_N_go_digits (x : N) :
  ∃ p : string,
    (∀ s, pretty_N_go x s = String.append p s)
    ∧ allDec p = true
    ∧ decValue p 0 = Z.of_N x
    ∧ ((0 < x)%N → p ≠ EmptyString).
Proof.
  induction (N.lt_wf_0 x) as [x _ IH].
  destruct (decide (x = 0)%N) as [->|Hx].
  { exists EmptyString. split_and!; done. }
  assert (0 < x)%N as Hpos by lia.
  destruct (IH (x `div` 10)%N) as (p & Hgo & Hdec & Hval & _).
  { by apply N.div_lt. }
  destruct (pretty_N_char_dec (x `mod` 10)%N) as [Hc Hb].
  { by apply N.mod_lt. }
  exists (String.append p (String (pretty_N_char (x `mod` 10)) EmptyString)).
  split_and!.
  - intros s. rewrite pretty_N_go_step by done. rewrite Hgo.
    by rewrite append_assoc.
  - rewrite allDec_app, Hdec. simpl. by rewrite Hc.
  - rewrite decValue_app, Hval. simpl. rewrite Hb.
    pose proof (N.div_mod x 10 ltac:(done)) as Hdm. lia.
  - intros _. by destruct p.
Qed.

Lemma pretty_nonneg (z : Z) :
  0 ≤ z →
  pretty z ≠ EmptyString ∧ allDec (pretty z) = true ∧ decValue (pretty z) 0 = z.
Proof.
  intros Hz. destruct z as [|q|q]; [done| |lia].
  change (pretty (Z.pos q)) with (pretty_N_go (N.pos q) EmptyString).
  destruct (pretty_N_go_digits (N.pos q)) as (p & Hgo & Hdec & Hval & Hne).
  rewrite Hgo, append_nil_r. split_and!; [apply Hne; lia|done|by rewrite Hval].
Qed.

Lemma pretty_neg (z : Z) : z < 0 → pretty z = String "-" (pretty (- z)).
Proof. intros Hz. by destruct z as [|q|q]; [lia..|]. Qed.

Section IntegerTheorems.

Variable Unquote : string → option string.
Variable ParseFloat : string → Z → option float.

(** X7: an INT literal whose text is the decimal writing of a natural
    number [n] decodes to [n] at [uint64] and [int64] when [n] is at most
    the largest value of the type, is a no-match at every integer type when
    [n] is above the largest value of the type, and makes the decoder panic
    at the six narrower types when [n] is within their range. *)
Theorem X7_decimal_literal_of_a_number (I : IntType) (n : Z) :
  0 ≤ n →
  parseBasicLit Unquote ParseFloat (TInt I) {| Kind := INT; Value := pretty n |}
  = if n <=? maxOf I
    then if wide (TInt I) then Ok (Some (VInt I n)) else Panic
    else Ok None.
Proof.
  intros Hn. destruct (pretty_nonneg n Hn) as (Hne & Hdec & Hval).
  rewrite decode_decimal by done. by rewrite Hval.
Qed.

End IntegerTheorems.

Lemma parseInt_unsigned_type (I : IntType) (s : string) :
  isSigned I = false → parseInt I s = Ok None.
Proof. by destruct I. Qed.

Lemma parseUint_signed_type (I : IntType) (s : string) :
  isSigned I = true → parseUint I s = Ok None.
Proof. by destruct I. Qed.

Lemma parseInt_nonneg (I : IntType) (z : Z) :
  isSigned I = true → 0 ≤ z →
  parseInt I (pretty z)
  = if z <=? maxOf I
    then if wide (TInt I) then Ok (Some (VInt I z)) else Panic
    else Ok None.
Proof.
  intros HI Hz. destruct (pretty_nonneg z Hz) as (Hne & Hdec & Hval).
  destruct I; try discriminate HI; unfold parseInt;
    rewrite ParseInt_dec by first [done | unfold bitSizes; set_solver];
    rewrite Hval;
    repeat match goal with
           | |- context [?n <=? ?m] => destruct (n <=? m) eqn:?
           end;
    first [reflexivity | unfold maxOf in *; lia].
Qed.

Lemma parseInt_neg (I : IntType) (z : Z) :
  isSigned I = true → z < 0 →
  parseInt I (pretty z)
  = if minOf I <=? z
    then if wide (TInt I) then Ok (Some (VInt I z)) else Panic
    else Ok None.
Proof.
  intros HI Hz. rewrite (pretty_neg z Hz).
  destruct (pretty_nonneg (- z) ltac:(lia)) as (Hne & Hdec & Hval).
  destruct I; try discriminate HI; unfold parseInt, minOf; simpl isSigned; cbv iota;
    rewrite ParseInt_neg_dec by first [done | unfold bitSizes; set_solver];
    rewrite Hval, Z.opp_involutive;
    repeat match goal with
           | |- context [?n <=? ?m] => destruct (n <=? m) eqn:?
           end;
    first [reflexivity | unfold maxOf in *; lia].
Qed.

Lemma parseUint_nonneg (I : IntType) (z : Z) :
  isSigned I = false → 0 ≤ z →
  parseUint I (pretty z)
  = if z <=? maxOf I
    then if wide (TInt I) then Ok (Some (VInt I z)) else Panic
    else Ok None.
Proof.
  intros HI Hz. destruct (pretty_nonneg z Hz) as (Hne & Hdec & Hval).
  destruct I; try discriminate HI; unfold parseUint;
    rewrite ParseUint_dec by first [done | unfold bitSizes; set_solver];
    rewrite Hval;
    repeat match goal with
           | |- context [?n <=? ?m] => destruct (n <=? m) eqn:?
           end;
    first [reflexivity | unfold maxOf in *; lia].
Qed.

Lemma parseUint_neg (I : IntType) (z : Z) :
  z < 0 → parseUint I (pretty z) = Ok None.
Proof.
  intros Hz. rewrite (pretty_neg z Hz).
  destruct I; try reflexivity; unfold parseUint;
    match goal with
    | |- context [strconv.ParseUint ?t ?b] =>
        pose proof (ParseUint_not_dec t b eq_refl) as He;
        destruct (strconv.ParseUint t b) as [u [e|]]
    end; done.
Qed.

(** X8: [parseInt] and [parseUint] on the decimal writing of an integer
    [z], with its minus sign when it is negative.  [parseInt] at a signed
    type accepts exactly the [z] between the smallest and the largest value
    of the type, and [parseUint] at an unsigned type exactly the [z] between
    0 and the largest value, so a minus sign is never accepted there; an
    accepted [z] is returned at the 64-bit types and makes the type
    assertion panic at the narrower ones.  [parseInt] at an unsigned type
    and [parseUint] at a signed type return nil on every text. *)
Theorem X8_parseInt_and_parseUint_on_written_integers (I : IntType) (z : Z) :
  parseInt I (pretty z)
  = (if isSigned I && (minOf I <=? z) && (z <=? maxOf I)
     then if wide (TInt I) then Ok (Some (VInt I z)) else Panic
     else Ok None)
  ∧ parseUint I (pretty z)
    = (if negb (isSigned I) && (0 <=? z) && (z <=? maxOf I)
       then if wide (TInt I) then Ok (Some (VInt I z)) else Panic
       else Ok None).
Proof.
  destruct (isSigned I) eqn:HI; simpl.
  - rewrite (parseUint_signed_type I) by done. split; [|done].
    destruct (Z_lt_le_dec z 0) as [Hz|Hz].
    + rewrite parseInt_neg by done.
      assert ((z <=? maxOf I) = true) as -> by (destruct I; simpl; lia).
      by rewrite andb_true_r.
    + rewrite parseInt_nonneg by done.
      assert ((minOf I <=? z) = true) as ->
        by (unfold minOf; rewrite HI; destruct I; simpl; lia).
      done.
  - rewrite (parseInt_unsigned_type I) by done. split; [done|].
    destruct (Z_lt_le_dec z 0) as [Hz|Hz].
    + rewrite parseUint_neg by done.
      by assert ((0 <=? z) = false) as -> by lia.
    + rewrite parseUint_nonneg by done.
      by assert ((0 <=? z) = true) as -> by lia.
Qed.

(** ** The records of the queries *)

Section RecordFacts.

Variable Unquote : string → option string.
Variable ParseFloat : string → Z → option float.

Lemma basicFn_Some (V : LitType) (doc name : string) (val : Expr) (r : LitValue) :
  basicFn Unquote ParseFloat V doc name val = Ok (Some r) →
  lvDoc r = doc ∧ lvName r = name
  ∧ ((∃ v b, val = Ident v ∧ V = TBool
             ∧ strconv.ParseBool v = (b, None) ∧ lvValue r = VBool b)
     ∨ (∃ lit, val = BasicLitE lit
               ∧ parseBasicLit Unquote ParseFloat V lit = Ok (Some (lvValue r)))).
Proof.
  unfold basicFn. destruct val as [v|lit| | | | |]; try done.
  - case_bool_decide as HV; simpl; [|done]. subst V.
    unfold parseBool. destruct (strconv.ParseBool v) as [b [e|]] eqn:Hb; simpl; [done|].
    intros [= <-]. simpl. split_and!; try done. left. by exists v, b.
  - destruct (parseBasicLit _ _ V lit) as [|[tVal|]] eqn:Hp; simpl; try done.
    intros [= <-]. simpl. split_and!; try done. right. by exists lit.
Qed.

Lemma basicFn_total (V : LitType) (doc name : string) (val : Expr) :
  wide V = true → basicFn Unquote ParseFloat V doc name val ≠ Panic.
Proof.
  intros Hw. unfold basicFn. destruct val as [v|lit| | | | |]; try done.
  - case_bool_decide as HV; simpl; [|done]. subst V.
    unfold parseBool. by destruct (strconv.ParseBool v) as [b [e|]].
  - pose proof (parseBasicLit_wide Unquote ParseFloat V lit Hw) as Hne.
    by destruct (parseBasicLit _ _ V lit) as [|[tVal|]].
Qed.

Lemma sliceFn_total (V : LitType) (doc name : string) (val : Expr) :
  wide V = true → sliceFn Unquote ParseFloat V doc name val ≠ Panic.
Proof.
  intros Hw. unfold sliceFn. destruct val as [| |elts| | | |]; try done.
  pose proof (sliceLoop_total Unquote ParseFloat V elts []
                (λ b _, parseBasicLit_wide Unquote ParseFloat V b Hw)) as Hne.
  destruct (sliceLoop _ _ V elts []) as [|[vs|]]; simpl; [done| |done].
  by case_bool_decide.
Qed.

Lemma mapFn_total (K V : LitType) (doc name : string) (val : Expr) :
  wide K = true → wide V = true →
  mapFn Unquote ParseFloat K V doc name val ≠ Panic.
Proof.
  intros HK HV. unfold mapFn. destruct val as [| |elts| | | |]; try done.
  rewrite mapLoop_pairs by done. simpl. by case_bool_decide.
Qed.

(** X4: every record of a scalar query carries a tag that is a non-empty
    member of the tag set and a value of the requested type, which is a wide
    type; it is the record of a tagged name of the file, under that name and
    the matched tag of its doc comment, and its value is either the boolean
    that the identifier initializer spells (boolean requests) or the decode
    of the basic-literal initializer. *)
Theorem X4_scalar_records
    (V : LitType) (f : File) (docMap : gset string)
    (result : list LitValue) (r : LitValue) :
  getBasicValues Unquote ParseFloat V f docMap = Ok result → r ∈ result →
  lvDoc r ∈ docMap ∧ lvDoc r ≠ "" ∧ typeOf (lvValue r) = V ∧ wide V = true
  ∧ ∃ n vSpec docs val,
      taggedName docMap f n vSpec docs
      ∧ lvDoc r = findDoc docMap docs ∧ lvName r = Name n
      ∧ Values vSpec !! 0%nat = Some val
      ∧ ((∃ v b, val = Ident v ∧ V = TBool
                 ∧ strconv.ParseBool v = (b, None) ∧ lvValue r = VBool b)
         ∨ (∃ lit, val = BasicLitE lit
                   ∧ parseBasicLit Unquote ParseFloat V lit = Ok (Some (lvValue r)))).
Proof.
  unfold getBasicValues. rewrite walkDecls_targets. intros Hwalk Hr.
  destruct (scan_sound _ _ _ _ _ Hwalk Hr) as [Hin|(tg & val & Htg & Hval & Hfn)].
  { by apply elem_of_nil in Hin. }
  apply elem_of_targets in Htg as (n & vSpec & docs & Htagged & ->).
  simpl in *. apply basicFn_Some in Hfn as (Hdoc & Hname & Hshape).
  pose proof Htagged as (_ & _ & _ & Hne).
  assert (findDoc docMap docs ∈ docMap) as Hmem.
  { destruct (findDoc_cases docMap docs) as [Hno|(_ & _ & _ & _ & _ & _ & Hm)]; [|done].
    by rewrite (findDoc_noTag docMap docs Hno) in Hne. }
  assert (typeOf (lvValue r) = V ∧ wide V = true) as [Hty Hw].
  { destruct Hshape as [(v & b & _ & -> & _ & ->)|(lit & _ & Hp)]; [done|].
    by destruct (parseBasicLit_Some _ _ _ _ _ Hp). }
  rewrite Hdoc. split_and!; try done.
  exists n, vSpec, docs, val. by split_and!.
Qed.

End RecordFacts.

Section CollectionTheorems.

Variable Unquote : string → option string.
Variable ParseFloat : string → Z → option float.

Lemma sliceLoop_Some (V : LitType) (elts : list Expr) (acc vs : list Val) :
  sliceLoop Unquote ParseFloat V elts acc = Ok (Some vs) ↔
  ∃ ws, vs = acc ++ ws
        ∧ Forall2 (λ b v, parseBasicLit Unquote ParseFloat V b = Ok (Some v))
            (litElts elts) ws.
Proof.
  revert acc. induction elts as [|e elts IH]; intros acc; simpl.
  - split.
    + intros [= <-]. exists []. split; [by rewrite app_nil_r|constructor].
    + intros (ws & -> & Hws). apply Forall2_nil_inv_l in Hws as ->.
      by rewrite app_nil_r.
  - destruct e as [|b| | | | |]; try apply IH.
    unfold litElts. simpl. fold (litElts elts).
    destruct (parseBasicLit _ _ V b) as [|[v|]] eqn:Hb; simpl.
    + split; [done|]. intros (ws & _ & Hws).
      apply Forall2_cons_inv_l in Hws as (? & ? & ? & _ & _). congruence.
    + rewrite IH. split.
      * intros (ws & -> & Hws). exists (v :: ws).
        split; [by rewrite <- app_assoc|by constructor].
      * intros (ws & -> & Hws).
        apply Forall2_cons_inv_l in Hws as (v' & ws' & Hv' & Hws' & ->).
        assert (v' = v) as -> by congruence.
        exists ws'. split; [by rewrite <- app_assoc|done].
    + split; [done|]. intros (ws & _ & Hws).
      apply Forall2_cons_inv_l in Hws as (? & ? & ? & _ & _). congruence.
Qed.

(** X9: the sequence decode step emits a record for a composite literal
    exactly when every element that is a basic literal decodes and there is
    at least one of them; the record carries the given tag and name, and its
    values are the decodes of the basic-literal elements, one for each, in
    source order. *)
Theorem X9_sequence_record
    (V : LitType) (doc name : string) (elts : list Expr) (r : SliceLitValue) :
  sliceFn Unquote ParseFloat V doc name (CompositeLit elts) = Ok (Some r) ↔
  svDoc r = doc ∧ svName r = name ∧ svValue r ≠ []
  ∧ Forall2 (λ b v, parseBasicLit Unquote ParseFloat V b = Ok (Some v))
      (litElts elts) (svValue r).
Proof.
  simpl. split.
  - destruct (sliceLoop _ _ V elts []) as [|[vs|]] eqn:Hloop; simpl; try done.
    case_bool_decide as Hlen; [|done]. intros [= <-]. simpl.
    apply sliceLoop_Some in Hloop as (ws & Heq & Hws). simpl in Heq. subst ws.
    split_and!; try done. intros ->. simpl in Hlen. lia.
  - intros (Hdoc & Hname & Hne & Hvs).
    assert (sliceLoop Unquote ParseFloat V elts [] = Ok (Some (svValue r))) as ->.
    { apply sliceLoop_Some. by exists (svValue r). }
    simpl. rewrite bool_decide_eq_true_2.
    + destruct r; simpl in *. by subst.
    + destruct (svValue r); [done|simpl; lia].
Qed.

Lemma mapLoop_Ok (K V : LitType) (elts : list Expr) (acc m : GoMap) :
  mapLoop Unquote ParseFloat K V elts acc = Ok m →
  m = assignAll acc (decodedPairs Unquote ParseFloat K V elts).
Proof.
  revert acc. induction elts as [|a elts IH]; intros acc; simpl.
  - by intros [= <-].
  - destruct a as [| | |[| b1 | | | | |] [| b2 | | | | |]| | |]; try apply IH.
    destruct (parseBasicLit _ _ K b1) as [|[k|]]; simpl; [done|..];
      (destruct (parseBasicLit _ _ V b2) as [|[v|]]; simpl; [done|..]); apply IH.
Qed.

End CollectionTheorems.

Lemma elem_of_mapAssign (m : GoMap) (k v k' v' : Val) :
  (k', v') ∈ mapAssign m k v → (k', v') ∈ m ∨ (k', v') = (k, v).
Proof.
  induction m as [|[k0 v0] m IH]; simpl.
  - intros ->%list_elem_of_singleton. by right.
  - destruct (keyEq k0 k).
    + intros [->|Hin]%elem_of_cons; [by right|]. left. by right.
    + intros [->|Hin]%elem_of_cons; [left; left|].
      destruct (IH Hin) as [?|?]; [left; by right|by right].
Qed.

Lemma elem_of_assignAll (m : GoMap) (ps : list (Val * Val)) (k v : Val) :
  (k, v) ∈ assignAll m ps → (k, v) ∈ m ∨ (k, v) ∈ ps.
Proof.
  revert m. induction ps as [|[k0 v0] ps IH]; intros m; [by left|].
  change (assignAll m ((k0, v0) :: ps)) with (assignAll (mapAssign m k0 v0) ps).
  intros [Hin|Hin]%IH; [|right; by right].
  apply elem_of_mapAssign in Hin as [Hin | [= -> ->]]; [by left|right; left].
Qed.

(** An assignment keeps the keys of a map distinct. *)
Lemma distinctKeys_mapAssign (m : GoMap) (k v : Val) :
  distinctKeys m → distinctKeys (mapAssign m k v).
Proof.
  induction 1 as [|k0 v0 m Hk0 Hm IH]; simpl.
  - constructor; [|constructor]. intros k' v' Hin. by apply elem_of_nil in Hin.
  - destruct (keyEq k0 k) eqn:E.
    + constructor; [|done]. intros k' v' Hin.
      destruct (keyEq k k') eqn:E'; [|done].
      rewrite <- (Hk0 k' v' Hin). symmetry. by apply (keyEq_trans k0 k k').
    + constructor; [|done]. intros k' v' Hin.
      apply elem_of_mapAssign in Hin as [Hin|[= -> ->]]; [by apply (Hk0 k' v')|done].
Qed.

Lemma distinctKeys_assignAll (m : GoMap) (ps : list (Val * Val)) :
  distinctKeys m → distinctKeys (assignAll m ps).
Proof.
  revert m. induction ps as [|[k v] ps IH]; intros m Hm; [done|].
  change (assignAll m ((k, v) :: ps)) with (assignAll (mapAssign m k v) ps).
  by apply IH, distinctKeys_mapAssign.
Qed.

(** In a map with distinct keys every entry is the one its key reads. *)
Lemma mapIndex_entry (m : GoMap) (k v : Val) :
  distinctKeys m → (k, v) ∈ m → keyEq k k = true → mapIndex m k = Some v.
Proof.
  induction 1 as [|k0 v0 m Hk0 Hm IH]; simpl.
  - intros Hin. by apply elem_of_nil in Hin.
  - intros [[= -> ->]|Hin]%elem_of_cons Hk.
    + by rewrite Hk.
    + rewrite (Hk0 k v Hin). by apply IH.
Qed.

Section MappingTheorems.

Variable Unquote : string → option string.
Variable ParseFloat : string → Z → option float.

(** X10: a record of the mapping decode step carries the given tag and
    name and a non-empty map, which is the result of assigning the decoded
    pairs of the composite literal in source order.  In that map no two
    entries have equal keys, every key has the requested key type and every
    value the requested value type, every entry comes from an element that
    decodes to it, and every key that equals itself (any key but a NaN)
    reads the value of its entry. *)
Theorem X10_mapping_record
    (K V : LitType) (doc name : string) (elts : list Expr) (r : MapLitValue) :
  mapFn Unquote ParseFloat K V doc name (CompositeLit elts) = Ok (Some r) →
  mvDoc r = doc ∧ mvName r = name
  ∧ mvValue r = assignAll [] (decodedPairs Unquote ParseFloat K V elts)
  ∧ mvValue r ≠ []
  ∧ distinctKeys (mvValue r)
  ∧ ∀ k v, (k, v) ∈ mvValue r →
      typeOf k = K ∧ typeOf v = V
      ∧ (k, v) ∈ decodedPairs Unquote ParseFloat K V elts
      ∧ (keyEq k k = true → mapIndex (mvValue r) k = Some v).
Proof.
  simpl. destruct (mapLoop _ _ K V elts []) as [|m] eqn:Hloop; simpl; [done|].
  case_bool_decide as Hlen; [|done]. intros [= <-]. simpl.
  apply mapLoop_Ok in Hloop. subst m.
  assert (distinctKeys (assignAll [] (decodedPairs Unquote ParseFloat K V elts))) as Hd
    by apply distinctKeys_assignAll, distinctKeys_nil.
  split_and!; try done.
  - intros Hnil. rewrite Hnil in Hlen. simpl in Hlen. lia.
  - intros k v Hin.
    destruct (elem_of_assignAll _ _ _ _ Hin) as [Hnil|Hps];
      [by apply elem_of_nil in Hnil|].
    destruct (decodedPairs_elem _ _ _ _ _ _ _ Hps) as (bk & bv & _ & Hk & Hv).
    destruct (parseBasicLit_Some _ _ _ _ _ Hk) as [_ Htk].
    destruct (parseBasicLit_Some _ _ _ _ _ Hv) as [_ Htv].
    split_and!; try done. intros Hkk. by apply mapIndex_entry.
Qed.

(** X11: at wide requested types a query panics exactly when some tagged
    name of the file has no initializer; on every other file it returns its
    list of records. *)
Theorem X11_queries_at_wide_types_panic_iff
    (K V : LitType) (f : File) (docMap : gset string) :
  wide K = true → wide V = true →
  (getBasicValues Unquote ParseFloat V f docMap = Panic ↔
   ∃ n vSpec docs, taggedName docMap f n vSpec docs ∧ Values vSpec = [])
  ∧ (getSliceValues Unquote ParseFloat V f docMap = Panic ↔
     ∃ n vSpec docs, taggedName docMap f n vSpec docs ∧ Values vSpec = [])
  ∧ (getMapValues Unquote ParseFloat K V f docMap = Panic ↔
     ∃ n vSpec docs, taggedName docMap f n vSpec docs ∧ Values vSpec = []).
Proof.
  intros HK HV. split_and!.
  - apply walkDecls_panic_iff. intros doc name val. by apply basicFn_total.
  - apply walkDecls_panic_iff. intros doc name val. by apply sliceFn_total.
  - apply walkDecls_panic_iff. intros doc name val. by apply mapFn_total.
Qed.

End MappingTheorems.

(** ** Labels *)

Lemma mkDocMap_ext (labels1 labels2 : list string) :
  (∀ x, x ∈ labels1 ↔ x ∈ labels2) → mkDocMap labels1 = mkDocMap labels2.
Proof.
  intros Hsame. unfold mkDocMap. apply set_eq. intros x.
  by rewrite !elem_of_list_to_set.
Qed.

Lemma same_labels_nil (labels1 labels2 : list string) :
  (∀ x, x ∈ labels1 ↔ x ∈ labels2) →
  bool_decide (length labels1 = 0%nat) = bool_decide (length labels2 = 0%nat).
Proof.
  intros Hsame.
  destruct labels1 as [|a l1], labels2 as [|b l2]; simpl; try done.
  - exfalso. apply (elem_of_nil b). apply Hsame. left.
  - exfalso. apply (elem_of_nil a). apply Hsame. left.
Qed.

(** The trimmed text that the scan returns is empty, or is in the tag set
    and begins with a byte that is neither a slash nor a space. *)
Lemma findDoc_head (docMap : gset string) (docs : CommentGroup) :
  findDoc docMap docs = ""
  ∨ (findDoc docMap docs ∈ docMap
     ∧ ∃ c rest, findDoc docMap docs = String c rest ∧ c ∉ docCutset).
Proof.
  destruct (findDoc_cases docMap docs) as [Hno|(pre & d & post & _ & _ & Ht & Hin)].
  { left. by apply findDoc_noTag. }
  destruct (TrimLeft_spec d docCutset) as (p & _ & _ & Hhd).
  rewrite Ht in Hhd. destruct (findDoc docMap docs) as [|c rest]; [by left|].
  right. split; [done|]. by exists c, rest.
Qed.

Lemma omap_all_None {A B : Type} (g : A → option B) (l : list A) :
  (∀ x, x ∈ l → g x = None) → omap g l = [].
Proof.
  induction l as [|x l IH]; intros Hl; simpl; [done|].
  rewrite (Hl x) by left. apply IH. intros y Hy. apply Hl. by right.
Qed.

Section LabelTheorems.

Variable Unquote : string → option string.
Variable ParseFloat : string → Z → option float.

(** X12: the labels of a query count as a set: two label lists with the
    same members, in whatever order and with whatever repetitions, give the
    same result in the scalar, sequence and mapping queries. *)
Theorem X12_labels_are_a_set
    (K V : LitType) (g : File) (labels1 labels2 : list string) :
  (∀ x, x ∈ labels1 ↔ x ∈ labels2) →
  GetBasicValues Unquote ParseFloat V g labels1
  = GetBasicValues Unquote ParseFloat V g labels2
  ∧ GetSliceValues Unquote ParseFloat V g labels1
    = GetSliceValues Unquote ParseFloat V g labels2
  ∧ GetMapValues Unquote ParseFloat K V g labels1
    = GetMapValues Unquote ParseFloat K V g labels2.
Proof.
  intros Hsame. unfold GetBasicValues, GetSliceValues, GetMapValues.
  by rewrite (same_labels_nil _ _ Hsame), (mkDocMap_ext _ _ Hsame).
Qed.

(** X13: when every label is empty or begins with a slash or a space, no
    declaration is ever selected: every query returns the empty list on
    every file, without reading an initializer, so even on a file where
    another label would make it panic. *)
Theorem X13_unmatchable_labels_select_nothing
    (K V : LitType) (g : File) (labels : list string) :
  Forall unmatchable labels →
  GetBasicValues Unquote ParseFloat V g labels = Ok []
  ∧ GetSliceValues Unquote ParseFloat V g labels = Ok []
  ∧ GetMapValues Unquote ParseFloat K V g labels = Ok [].
Proof.
  intros Hl.
  assert (targets (mkDocMap labels) g = []) as Hno.
  { unfold targets. apply omap_all_None. intros n _.
    unfold target. destruct (Obj n) as [[vSpec|]|]; [|done..].
    destruct (Doc vSpec) as [docs|]; [|done].
    destruct (findDoc_head (mkDocMap labels) docs)
      as [->|(Hin & c & rest & Heq & Hc)]; [done|].
    exfalso. unfold mkDocMap in *. apply elem_of_list_to_set in Hin.
    rewrite Forall_forall in Hl. specialize (Hl _ Hin).
    rewrite Heq in Hl. by simpl in Hl. }
  unfold GetBasicValues, GetSliceValues, GetMapValues,
    getBasicValues, getSliceValues, getMapValues.
  rewrite !walkDecls_targets, Hno. simpl. by repeat case_bool_decide.
Qed.

(** X14: when the first doc line that is in the tag set trims to the empty
    string (the empty label is in the set and a line holds only slashes and
    spaces), the name is skipped just as if no line matched: whatever the
    later lines, the decode step and the initializer list. *)
Theorem X14_empty_tag_skips_the_name
    {T : Type} (docMap : gset string) (fn : string → string → Expr → res (option T))
    (n : NameIdent) (vSpec : ValueSpecData) (docs : CommentGroup)
    (result : list T) :
  Obj n = Some (DeclValueSpec vSpec) → Doc vSpec = Some docs →
  matchedTag docMap docs "" →
  visitName docMap fn n result = Ok result.
Proof.
  intros HObj HDoc Hm.
  rewrite (visitName_found docMap fn n vSpec docs) by done.
  by rewrite (findDoc_matched docMap docs "" Hm), bool_decide_eq_true_2.
Qed.

End LabelTheorems.

(** ** The function filter, in general *)

Lemma forRange_panic_iff {A S : Type} (body : A → S → res S) (P : A → Prop)
    (l : list A) (s : S) :
  (∀ x s0, body x s0 = Panic ↔ P x) →
  forRange body l s = Panic ↔ ∃ x, x ∈ l ∧ P x.
Proof.
  intros Hb. revert s. induction l as [|x l IH]; intros s; simpl.
  - split; [done|]. intros (x & Hx & _). by apply elem_of_nil in Hx.
  - destruct (body x s) as [|s'] eqn:Hx; simpl.
    + split; [|done]. intros _. exists x. split; [left|by apply (Hb x s)].
    + rewrite IH. split.
      * intros (y & Hy & HP). exists y. split; [by right|done].
      * intros (y & [Heq|Hy]%elem_of_cons & HP); [subst y|eauto].
        apply (Hb x s) in HP. congruence.
Qed.

Lemma sublist_concat_omap {A B : Type} (sel : A → list B) (g : A → option B)
    (l : list A) :
  (∀ x, sel x = [] ∨ ∃ y, g x = Some y ∧ sel x = [y]) →
  concat (map sel l) `sublist_of` omap g l.
Proof.
  intros Hsel. induction l as [|x l IH]; simpl; [constructor|].
  destruct (Hsel x) as [Hs|(y & Hg & Hs)]; rewrite Hs; simpl.
  - destruct (g x); [by apply sublist_cons|done].
  - rewrite Hg. by apply sublist_skip.
Qed.

Lemma sublist_concat_map {A B : Type} (sel1 sel2 : A → list B) (l : list A) :
  (∀ x, sel1 x `sublist_of` sel2 x) →
  concat (map sel1 l) `sublist_of` concat (map sel2 l).
Proof.
  intros Hsel. induction l as [|x l IH]; simpl; [constructor|].
  by apply sublist_app.
Qed.

Section FilterFacts.

Variable Quote : string → string.

Lemma elem_of_paramsMap (l : FieldList) (acc : gset string) (x : string) :
  x ∈ foldl (λ m par, addParam par m) acc l ↔
  x ∈ acc ∨ ∃ par, par ∈ l ∧ paramTypeName par = Some x.
Proof.
  revert acc. induction l as [|par l IH]; intros acc; simpl.
  - split; [by left|]. intros [?|(par & Hin & _)]; [done|by apply elem_of_nil in Hin].
  - rewrite IH. clear IH.
    assert (∀ y, y ∈ addParam par acc ↔ y ∈ acc ∨ paramTypeName par = Some y) as Hadd.
    { intros y. unfold addParam, paramTypeName.
      destruct (FType par) as [nm| | | |[nm| | | | |X [sel|]|]|X [sel|]|];
        first [ rewrite elem_of_union, elem_of_singleton;
                split; [intros [->|?]; [by right|by left]
                       |intros [?|[= ->]]; [by right|by left]]
              | split; [by left|intros [?|?]; done] ]. }
    rewrite Hadd. split.
    + intros [[?|Hp]|(par' & Hin & Hp)]; [by left|right..].
      * exists par. split; [left|done].
      * exists par'. split; [by right|done].
    + intros [?|(par' & [->|Hin]%elem_of_cons & Hp)]; [by left; left|by left; right|].
      right. by exists par'.
Qed.

(** X15: the parameter requirement.  A declaration without parameter list
    passes it only when nothing is required.  A declaration with a parameter
    list passes it exactly when every required name is the type name of
    some parameter, as such or in its quoted form; the type name of a
    parameter is the one of an identifier or of a qualified type (its
    selected name), directly or behind one pointer, and a parameter of any
    other type has none. *)
Theorem X15_parameter_requirement (paramTypes : list string) (t : option FuncType) :
  paramsCheck Quote paramTypes t = true ↔
  match t ≫= Params with
  | None => paramTypes = []
  | Some l =>
      ∀ p, p ∈ paramTypes →
        ∃ par, par ∈ l
               ∧ (paramTypeName par = Some p ∨ paramTypeName par = Some (Quote p))
  end.
Proof.
  unfold paramsCheck. destruct t as [[[l|]]|]; simpl.
  - rewrite forallb_forall. split.
    + intros Hall p Hp. apply list_elem_of_In in Hp.
      apply Hall, orb_true_iff in Hp as [Hp|Hp];
        apply bool_decide_eq_true, elem_of_paramsMap in Hp
          as [Hno|(par & Hin & Hpar)];
        try (by apply not_elem_of_empty in Hno); exists par; eauto.
    + intros Hall p Hp. apply list_elem_of_In in Hp.
      destruct (Hall p Hp) as (par & Hin & [Hpar|Hpar]);
        apply orb_true_iff; [left|right];
        apply bool_decide_eq_true, elem_of_paramsMap; right; by exists par.
  - rewrite negb_true_iff, bool_decide_eq_false.
    destruct paramTypes; simpl; split; (done || lia).
  - rewrite negb_true_iff, bool_decide_eq_false.
    destruct paramTypes; simpl; split; (done || lia).
Qed.

Lemma visitFunc_spec (recType : string) (paramTypes : list string)
    (d : Decl) (result : list string) :
  ¬ emptyReceiver d →
  visitFunc Quote recType paramTypes d result
  = Ok (result ++ selected Quote recType paramTypes d).
Proof.
  intros Hne. destruct d as [|decl|]; simpl; [by rewrite app_nil_r| |by rewrite app_nil_r].
  unfold recvPasses.
  destruct (recvCheck recType (Recv decl)) as [|b] eqn:Hrecv; simpl.
  - exfalso. apply Hne. exists decl. split; [done|].
    unfold recvCheck in Hrecv. destruct (Recv decl) as [[|r l]|]; [done|..|done].
    simpl in Hrecv. by destruct (FType r) as [| | | |[]| |].
  - destruct b; simpl; [|by rewrite app_nil_r].
    destruct (paramsCheck _ _ _); simpl; [done|by rewrite app_nil_r].
Qed.

Lemma visitFunc_panic (recType : string) (paramTypes : list string)
    (d : Decl) (result : list string) :
  visitFunc Quote recType paramTypes d result = Panic ↔ emptyReceiver d.
Proof.
  split.
  - intros Hp. destruct d as [|decl|]; try done. exists decl. split; [done|].
    simpl in Hp. unfold recvCheck in Hp.
    destruct (Recv decl) as [[|r l]|]; [done|..].
    + simpl in Hp. destruct (FType r) as [| | | |[]| |]; simpl in Hp;
        repeat case_match; done.
    + simpl in Hp. repeat case_match; done.
  - intros (decl & -> & Hr). simpl. by rewrite Hr.
Qed.

Lemma GetFuncNames_selected (g : File) (recType : string) (paramTypes : list string) :
  (∀ d, d ∈ Decls g → ¬ emptyReceiver d) →
  GetFuncNames Quote g recType paramTypes
  = Ok (concat (map (selected Quote recType paramTypes) (Decls g))).
Proof.
  intros Hg. unfold GetFuncNames.
  rewrite (forRange_collect _ (selected Quote recType paramTypes)); [done|].
  intros d r Hd. by apply visitFunc_spec, Hg.
Qed.

End FilterFacts.

Section FilterTheorems.

Variable Quote : string → string.

Lemma GetFuncNames_panic_iff (g : File) (recType : string) (paramTypes : list string) :
  GetFuncNames Quote g recType paramTypes = Panic ↔
  ∃ d, d ∈ Decls g ∧ emptyReceiver d.
Proof.
  unfold GetFuncNames. apply forRange_panic_iff.
  intros d s0. apply visitFunc_panic.
Qed.

Lemma GetFuncNames_Ok (g : File) (recType : string) (paramTypes : list string)
    (names : list string) :
  GetFuncNames Quote g recType paramTypes = Ok names →
  ∀ d, d ∈ Decls g → ¬ emptyReceiver d.
Proof.
  intros Hok d Hd He.
  assert (GetFuncNames Quote g recType paramTypes = Panic) as Hp
    by (apply GetFuncNames_panic_iff; eauto).
  congruence.
Qed.

Lemma paramsCheck_app (ps qs : list string) (t : option FuncType) :
  paramsCheck Quote (ps ++ qs) t = true → paramsCheck Quote ps t = true.
Proof.
  unfold paramsCheck. destruct t as [[[l|]]|]; simpl.
  - rewrite forallb_app. by intros [? _]%andb_prop.
  - rewrite !negb_true_iff, !bool_decide_eq_false, length_app. lia.
  - rewrite !negb_true_iff, !bool_decide_eq_false, length_app. lia.
Qed.

Lemma paramsCheck_ext (ps qs : list string) (t : option FuncType) :
  (∀ x, x ∈ ps ↔ x ∈ qs) →
  paramsCheck Quote ps t = paramsCheck Quote qs t.
Proof.
  intros Hsame.
  assert (bool_decide (0 < length ps)%nat = bool_decide (0 < length qs)%nat) as Hlen.
  { destruct ps as [|a ps], qs as [|b qs]; simpl.
    - done.
    - exfalso. apply (elem_of_nil b). apply Hsame. left.
    - exfalso. apply (elem_of_nil a). apply Hsame. left.
    - reflexivity. }
  unfold paramsCheck. destruct t as [[[l|]]|]; simpl; [|by rewrite Hlen..].
  apply eq_true_iff_eq. rewrite !forallb_forall.
  split; intros Hall p Hp; apply Hall, list_elem_of_In, Hsame, list_elem_of_In, Hp.
Qed.

(** X16: the filter panics exactly when some function declaration of the
    file has a receiver list that is present and empty, whatever the
    receiver name and the required parameter types; on every other file it
    returns a list of names. *)
Theorem X16_filter_panics_iff_empty_receiver_list
    (g : File) (recType : string) (paramTypes : list string) :
  (GetFuncNames Quote g recType paramTypes = Panic ↔
   ∃ decl, FuncDeclD decl ∈ Decls g ∧ Recv decl = Some [])
  ∧ ((∀ decl, FuncDeclD decl ∈ Decls g → Recv decl ≠ Some []) →
     ∃ names, GetFuncNames Quote g recType paramTypes = Ok names).
Proof.
  assert (GetFuncNames Quote g recType paramTypes = Panic ↔
          ∃ decl, FuncDeclD decl ∈ Decls g ∧ Recv decl = Some []) as Hiff.
  { rewrite GetFuncNames_panic_iff. split.
    - intros (d & Hd & decl & -> & Hr). eauto.
    - intros (decl & Hd & Hr). exists (FuncDeclD decl). split; [done|].
      by exists decl. }
  split; [done|]. intros Hne.
  destruct (GetFuncNames Quote g recType paramTypes) as [|names] eqn:Hres; [|eauto].
  destruct (proj1 Hiff eq_refl) as (decl & Hd & Hr). by destruct (Hne decl Hd).
Qed.

(** X17: the names that the filter returns are names of function
    declarations of the file, in the order of the declarations and each at
    most as often as it is declared: a subsequence of the declared function
    names. *)
Theorem X17_filter_returns_declared_names_in_order
    (g : File) (recType : string) (paramTypes names : list string) :
  GetFuncNames Quote g recType paramTypes = Ok names →
  names `sublist_of` funcDeclNames g.
Proof.
  intros Hok. pose proof (GetFuncNames_Ok _ _ _ _ Hok) as Hne.
  rewrite GetFuncNames_selected in Hok by done. injection Hok as <-.
  apply sublist_concat_omap. intros d. destruct d as [|decl|]; simpl; [by left| |by left].
  destruct (_ && _); [right; eauto|by left].
Qed.

(** X18: requiring more parameter types never adds a name: when the filter
    returns for some requirements, it returns for the requirements extended
    by further type names too, and the result is a subsequence of the
    former. *)
Theorem X18_more_requirements_fewer_names
    (g : File) (recType : string) (paramTypes more names : list string) :
  GetFuncNames Quote g recType paramTypes = Ok names →
  ∃ names',
    GetFuncNames Quote g recType (paramTypes ++ more) = Ok names'
    ∧ names' `sublist_of` names.
Proof.
  intros Hok. pose proof (GetFuncNames_Ok _ _ _ _ Hok) as Hne.
  rewrite GetFuncNames_selected in Hok by done. injection Hok as <-.
  rewrite GetFuncNames_selected by done. eexists. split; [done|].
  apply sublist_concat_map. intros d. destruct d as [|decl|]; simpl; try done.
  destruct (recvPasses recType (Recv decl)); simpl; [|done].
  destruct (paramsCheck Quote (paramTypes ++ more) (Type_ decl)) eqn:Hmore; [|apply sublist_nil_l].
  by rewrite (paramsCheck_app _ _ _ Hmore).
Qed.

(** X19: the required parameter types count as a set: two requirement
    lists with the same members, in whatever order and with whatever
    repetitions, give the same result. *)
Theorem X19_requirements_are_a_set
    (g : File) (recType : string) (paramTypes1 paramTypes2 : list string) :
  (∀ x, x ∈ paramTypes1 ↔ x ∈ paramTypes2) →
  GetFuncNames Quote g recType paramTypes1 = GetFuncNames Quote g recType paramTypes2.
Proof.
  intros Hsame. unfold GetFuncNames. apply forRange_ext. intros d r _.
  destruct d as [|decl|]; simpl; try done.
  by rewrite (paramsCheck_ext _ _ _ Hsame).
Qed.

(** X20: on a file whose methods all have a receiver that is an identifier
    or a pointer, the filter returns, in source order, the names of the
    function declarations that meet both requirements: the receiver one (no
    receiver for the empty name, otherwise a receiver whose type name,
    through one pointer, is the requested name) and the parameter one. *)
Theorem X20_filter_on_tested_receivers
    (g : File) (recType : string) (paramTypes : list string) :
  Forall (λ d, recvTested d = true) (Decls g) →
  GetFuncNames Quote g recType paramTypes
  = Ok (concat (map (qualifying Quote recType paramTypes) (Decls g))).
Proof.
  intros Hg. rewrite Forall_forall in Hg. unfold GetFuncNames.
  rewrite (forRange_collect _ (qualifying Quote recType paramTypes)); [done|].
  intros d r Hd. specialize (Hg d Hd).
  destruct d as [|decl|]; simpl; [by rewrite app_nil_r| |by rewrite app_nil_r].
  unfold recvQualifies, recvTypeName. simpl in Hg.
  destruct (Recv decl) as [[|[ty] l]|]; simpl in *; [done| |].
  - destruct ty as [name| | | |X| |]; simpl in *; try done.
    + repeat case_bool_decide; simplify_eq; simpl;
        try (by rewrite ?app_nil_r); by destruct (paramsCheck _ _ _); rewrite ?app_nil_r.
    + destruct X as [name| | | | | |]; simpl;
        repeat case_bool_decide; simplify_eq; simpl;
        try (by rewrite ?app_nil_r); by destruct (paramsCheck _ _ _); rewrite ?app_nil_r.
  - repeat case_bool_decide; simplify_eq; simpl;
      try (by rewrite ?app_nil_r); by destruct (paramsCheck _ _ _); rewrite ?app_nil_r.
Qed.

End FilterTheorems.

(** ** The further properties at concrete trees *)

Lemma tiny_targets :
  targets (mkDocMap ["parser"]) tinyFile
  = [ {| tTag := "parser"; tName := "intValue"; tInit := Some (intLit "3") |} ].
Proof. vm_compute. reflexivity. Qed.

Lemma tiny_tagged :
  taggedName (mkDocMap ["parser"]) tinyFile tinyName tinySpecData ["// parser"].
Proof.
  split_and!; [|reflexivity|reflexivity|vm_compute; discriminate].
  exists [ValueSpecS (declare ["intValue"] (Some ["// parser"]) [intLit "3"])],
         (declare ["intValue"] (Some ["// parser"]) [intLit "3"]).
  split_and!; left.
Qed.

Lemma X1_witness :
  walkDecls (mkDocMap ["parser"]) (basicFn noUnquote noParseFloat (TInt Int64)) tinyFile
  = Ok (targets (mkDocMap ["parser"]) tinyFile
          ≫= outcome (basicFn noUnquote noParseFloat (TInt Int64))).
Proof.
  apply X1_walk_returns_the_records_of_the_tagged_names.
  intros tg Htg. rewrite tiny_targets in Htg.
  apply list_elem_of_singleton in Htg as ->.
  exists (intLit "3"). split; [reflexivity|]. vm_compute. discriminate.
Defined.

Lemma X3_witness :
  ∃ n vSpec docs val,
    taggedName (mkDocMap ["parser"]) tinyFile n vSpec docs
    ∧ matchedTag (mkDocMap ["parser"]) docs (findDoc (mkDocMap ["parser"]) docs)
    ∧ Values vSpec !! 0%nat = Some val
    ∧ basicFn noUnquote noParseFloat (TInt Int64)
        (findDoc (mkDocMap ["parser"]) docs) (Name n) val
      = Ok (Some tinyRecord).
Proof.
  apply (X3_walk_records_come_from_tagged_names (mkDocMap ["parser"])
           (basicFn noUnquote noParseFloat (TInt Int64)) tinyFile [tinyRecord]).
  - vm_compute. reflexivity.
  - left.
Defined.

Lemma X4_witness :
  lvDoc tinyRecord ∈ mkDocMap ["parser"] ∧ lvDoc tinyRecord ≠ ""
  ∧ typeOf (lvValue tinyRecord) = TInt Int64 ∧ wide (TInt Int64) = true
  ∧ ∃ n vSpec docs val,
      taggedName (mkDocMap ["parser"]) tinyFile n vSpec docs
      ∧ lvDoc tinyRecord = findDoc (mkDocMap ["parser"]) docs
      ∧ lvName tinyRecord = Name n
      ∧ Values vSpec !! 0%nat = Some val
      ∧ ((∃ v b, val = Ident v ∧ TInt Int64 = TBool
                 ∧ strconv.ParseBool v = (b, None) ∧ lvValue tinyRecord = VBool b)
         ∨ (∃ lit, val = BasicLitE lit
                   ∧ parseBasicLit noUnquote noParseFloat (TInt Int64) lit
                     = Ok (Some (lvValue tinyRecord)))).
Proof.
  apply (X4_scalar_records noUnquote noParseFloat (TInt Int64) tinyFile
           (mkDocMap ["parser"]) [tinyRecord] tinyRecord).
  - vm_compute. reflexivity.
  - left.
Defined.

Lemma X7_witness :
  parseBasicLit noUnquote noParseFloat (TInt Uint64)
    {| Kind := INT; Value := pretty 18446744073709551615 |}
  = if 18446744073709551615 <=? maxOf Uint64
    then if wide (TInt Uint64) then Ok (Some (VInt Uint64 18446744073709551615)) else Panic
    else Ok None.
Proof. apply X7_decimal_literal_of_a_number. lia. Defined.

Lemma X10_witness :
  mvDoc dupMapRecord = "parser" ∧ mvName dupMapRecord = "m"
  ∧ mvValue dupMapRecord
    = assignAll [] (decodedPairs noUnquote noParseFloat (TInt Int64) (TInt Int64) dupMapElts)
  ∧ mvValue dupMapRecord ≠ []
  ∧ distinctKeys (mvValue dupMapRecord)
  ∧ ∀ k v, (k, v) ∈ mvValue dupMapRecord →
      typeOf k = TInt Int64 ∧ typeOf v = TInt Int64
      ∧ (k, v) ∈ decodedPairs noUnquote noParseFloat (TInt Int64) (TInt Int64) dupMapElts
      ∧ (keyEq k k = true → mapIndex (mvValue dupMapRecord) k = Some v).
Proof.
  apply (X10_mapping_record noUnquote noParseFloat (TInt Int64) (TInt Int64)
           "parser" "m" dupMapElts dupMapRecord).
  vm_compute. reflexivity.
Defined.

Lemma X11_witness :
  (getBasicValues noUnquote noParseFloat (TInt Int64) (varGroup [noInitSpec])
     (mkDocMap ["parser"]) = Panic ↔
   ∃ n vSpec docs,
     taggedName (mkDocMap ["parser"]) (varGroup [noInitSpec]) n vSpec docs
     ∧ Values vSpec = [])
  ∧ (getSliceValues noUnquote noParseFloat (TInt Int64) (varGroup [noInitSpec])
       (mkDocMap ["parser"]) = Panic ↔
     ∃ n vSpec docs,
       taggedName (mkDocMap ["parser"]) (varGroup [noInitSpec]) n vSpec docs
       ∧ Values vSpec = [])
  ∧ (getMapValues noUnquote noParseFloat TString (TInt Int64) (varGroup [noInitSpec])
       (mkDocMap ["parser"]) = Panic ↔
     ∃ n vSpec docs,
       taggedName (mkDocMap ["parser"]) (varGroup [noInitSpec]) n vSpec docs
       ∧ Values vSpec = []).
Proof.
  apply (X11_queries_at_wide_types_panic_iff noUnquote noParseFloat
           TString (TInt Int64)); reflexivity.
Defined.

Lemma X12_witness :
  GetBasicValues noUnquote noParseFloat TBool exampleFile ["parser"; "parser:str"]
  = GetBasicValues noUnquote noParseFloat TBool exampleFile
      ["parser:str"; "parser"; "parser"]
  ∧ GetSliceValues noUnquote noParseFloat TBool exampleFile ["parser"; "parser:str"]
    = GetSliceValues noUnquote noParseFloat TBool exampleFile
        ["parser:str"; "parser"; "parser"]
  ∧ GetMapValues noUnquote noParseFloat (TInt Int64) TBool exampleFile
      ["parser"; "parser:str"]
    = GetMapValues noUnquote noParseFloat (TInt Int64) TBool exampleFile
        ["parser:str"; "parser"; "parser"].
Proof.
  apply X12_labels_are_a_set. intros x.
  rewrite !elem_of_cons. pose proof (elem_of_nil x). tauto.
Defined.

Lemma X13_witness :
  GetBasicValues noUnquote noParseFloat (TInt Int8) exampleFile ["/parser"; ""; " parser"]
  = Ok []
  ∧ GetSliceValues noUnquote noParseFloat (TInt Int8) exampleFile
      ["/parser"; ""; " parser"] = Ok []
  ∧ GetMapValues noUnquote noParseFloat TString (TInt Int8) exampleFile
      ["/parser"; ""; " parser"] = Ok [].
Proof.
  apply X13_unmatchable_labels_select_nothing.
  constructor; [unfold unmatchable, docCutset; left|].
  constructor; [exact I|].
  constructor; [unfold unmatchable, docCutset; right; left|].
  constructor.
Defined.

Lemma X14_witness :
  visitName (mkDocMap [""; "parser"]) (basicFn noUnquote noParseFloat (TInt Int64))
    maskedName [] = Ok [].
Proof.
  apply (X14_empty_tag_skips_the_name (mkDocMap [""; "parser"])
           (basicFn noUnquote noParseFloat (TInt Int64)) maskedName maskedSpecData
           ["//"; "// parser"] []); try reflexivity.
  exists [], "//", ["// parser"]. split_and!; [done| |done|].
  - intros d Hd. by apply elem_of_nil in Hd.
  - unfold mkDocMap. apply elem_of_list_to_set. left.
Defined.

Lemma X17_witness :
  ["usefulFunc1"; "usefulFunc2"; "usefulFunc3"] `sublist_of` funcDeclNames exampleFile.
Proof.
  apply (X17_filter_returns_declared_names_in_order quoted exampleFile
           "LocalStruct" ["Context"; "string"]).
  vm_compute. reflexivity.
Defined.

Lemma X18_witness :
  ∃ names',
    GetFuncNames quoted exampleFile "" (["Context"] ++ ["int"]) = Ok names'
    ∧ names' `sublist_of` ["usefulFunc4"].
Proof.
  apply X18_more_requirements_fewer_names. vm_compute. reflexivity.
Defined.

Lemma X19_witness :
  GetFuncNames quoted exampleFile "LocalStruct" ["Context"; "string"]
  = GetFuncNames quoted exampleFile "LocalStruct" ["string"; "Context"; "string"].
Proof.
  apply X19_requirements_are_a_set. intros x.
  rewrite !elem_of_cons. pose proof (elem_of_nil x). tauto.
Defined.

Lemma X20_witness :
  GetFuncNames quoted exampleFile "LocalStruct" ["Context"]
  = Ok (concat (map (qualifying quoted "LocalStruct" ["Context"]) (Decls exampleFile))).
Proof.
  apply X20_filter_on_tested_receivers. repeat constructor.
Defined.
